(** * go-launcher: rule evaluator, integrity verifier, fetcher,
      download orchestrator and tar extractor.

    A shallow embedding of the Go sources.  Pure code (the rule ladder,
    the dedup loops, the error collector) is written as Rocq functions.
    Code that talks to the operating system or to the network is written
    in a state-and-error monad over an explicit [World]: a flat file
    system, a table of remote responses, a fault oracle that lets every
    system call fail, and the trace of the calls made so far.

    The platform wrappers embedded here are those of the [!windows]
    build (fileExists, openFile, createFile, createFileWithPerms,
    createParents, createLink).  The rest of the launcher follows the
    verified core: argument templating, the decoding of launch
    arguments, JSON files, the version manifest, the ordering of JDK
    releases, the zip extractor, and, in module [Windows], the wrappers
    of the windows build with the verifier compiled against them. *)

From Stdlib Require Import ZArith Zdiv String Ascii Strings.Byte DecimalString List.
From stdpp Require Import gmap strings list fin_maps.

Set Warnings "-register-all".

Local Open Scope Z_scope.
Local Open Scope string_scope.
Local Open Scope list_scope.

(** ** Go errors *)

(** The system calls of the model; used to name the call that failed and
    to index the fault oracle. *)
Inductive op :=
| OpStat | OpOpen | OpRead | OpRemove | OpMkdirAll | OpCreate
| OpWrite | OpSymlink | OpGet | OpBody.

(** [New] is [errors.New]; [JoinError] is the value built by [errors.Join]
    (its non-nil members, in order); [Sys] is an error handed back by
    the operating system or the HTTP client; [Lib] is an error handed
    back by a decoding library (gzip, tar, json). *)
Inductive error :=
| New (text : string)
| JoinError (errs : list error)
| Sys (o : op) (target : string)
| Lib (text : string).

(** [errors.Join(errs...)]: nil members are dropped; the result is nil
    when nothing is left, and a fresh join error otherwise (also for a
    single survivor). *)
Definition errors_Join (errs : list (option error)) : option error :=
  match omap id errs with
  | [] => None
  | es => Some (JoinError es)
  end.

(** The errors at the leaves of a join tree, left to right. *)
Fixpoint leaves (e : error) : list error :=
  match e with
  | JoinError es => flat_map leaves es
  | _ => [e]
  end.



(** [%d] of a non-negative int. *)
Definition decimal (n : nat) : string := NilZero.string_of_uint (Nat.to_uint n).

(** ** Rule evaluator *)

Record Platform := { GOARCH : string; GOOS : string }.

Record Rule := {
  Action : string;
  Features : gmap string bool;
  OsArch : string;
  OsName : string
}.

Definition nonempty (s : string) : bool := negb (String.eqb s "").

(** [Rule.testRule].  The range over the rule's feature map is a
    conjunction over its entries, so the enumeration order is
    immaterial; a nil map has no entries. *)
Definition testRule (pf : Platform) (this : Rule) (features : gmap string bool) : bool :=
  if negb (forallb (λ kv : string * bool,
                      match features !! kv.1 with
                      | None => false
                      | Some value => Bool.eqb value kv.2
                      end) (map_to_list (Features this)))
  then false
  else if nonempty (OsArch this) && negb (String.eqb (GOARCH pf) (OsArch this))
  then false
  else if nonempty (OsName this) && negb (String.eqb (GOOS pf) (OsName this))
  then false
  else true.

(** One iteration of the loop of [testRules]: a matching rule
    overwrites the running action. *)
Definition rule_step (pf : Platform) (features : gmap string bool)
    (action : string) (rule : Rule) : string :=
  if testRule pf rule features then Action rule else action.

Definition rule_loop (pf : Platform) (features : gmap string bool)
    (rules : list Rule) (action : string) : string :=
  fold_left (rule_step pf features) rules action.

(** [testRules]. *)
Definition testRules (pf : Platform) (rules : list Rule)
    (features : gmap string bool) : bool :=
  if (List.length rules =? 0)%nat then true
  else String.eqb (rule_loop pf features rules "disallow") "allow".

(** The rule that decides: the last one that matches, if any. *)
Definition last_match (pf : Platform) (features : gmap string bool)
    (rules : list Rule) : option Rule :=
  find (λ r, testRule pf r features) (rev rules).

(** ** The world: file system, network, faults, trace *)

(** A node of the flat file system.  Paths are compared as strings;
    links are stored with their target and are never followed; the
    ancestors that [os.MkdirAll] creates on the way are not
    represented.  The umask is not modelled. *)
Inductive node :=
| NDir
| NFile (perm : Z) (data : list byte)
| NLink (target : string).

(** What [http.Get] obtains for a URL: the status line and the bytes of
    the body that arrive; [BodyBroken] says that the transfer breaks
    after those bytes. *)
Record Response := {
  StatusCode : Z;
  Status : string;
  Body : list byte;
  BodyBroken : bool
}.

Inductive event :=
| EStat (path : string)
| EOpen (path : string)
| ERead (path : string)
| ERemove (path : string)
| EMkdirAll (path : string)
| ECreate (path : string)
| EWrite (path : string) (data : list byte)
| ESymlink (path target : string)
| EGet (url : string)
| EBody (url : string).

Record World := {
  fs : gmap string node;
  net : gmap string Response;
  fault : op → string → bool;
  trace : list event
}.

Definition set_fs (f : gmap string node → gmap string node) (w : World) : World :=
  {| fs := f (fs w); net := net w; fault := fault w; trace := trace w |}.

Definition add_event (e : event) (w : World) : World :=
  {| fs := fs w; net := net w; fault := fault w; trace := trace w ++ [e] |}.

(** The world after the calls [es] were logged. *)
Definition add_events (es : list event) (w : World) : World :=
  {| fs := fs w; net := net w; fault := fault w; trace := trace w ++ es |}.

Definition is_network (e : event) : bool :=
  match e with EGet _ | EBody _ => true | _ => false end.

Definition is_mutation (e : event) : bool :=
  match e with
  | ERemove _ | EMkdirAll _ | ECreate _ | EWrite _ _ | ESymlink _ _ => true
  | _ => false
  end.

(** ** The monad of fallible, effectful code *)

(** A call returns a value, returns an error, or panics (a run-time
    panic is never recovered in this program: it ends the process). *)
Inductive res (A : Type) :=
| Ok (a : A)
| Fail (e : error)
| Panic.
Arguments Ok {A} a.
Arguments Fail {A} e.
Arguments Panic {A}.

Definition M (A : Type) : Type := World → res A * World.

Definition ret {A} (a : A) : M A := λ w, (Ok a, w).
Definition throw {A} (e : error) : M A := λ w, (Fail e, w).
Definition panic {A} : M A := λ w, (Panic, w).
Definition bind {A B} (m : M A) (k : A → M B) : M B :=
  λ w, match m w with
       | (Ok a, w') => k a w'
       | (Fail e, w') => (Fail e, w')
       | (Panic, w') => (Panic, w')
       end.

Notation "'let*' x ':=' m 'in' k" := (bind m (λ x, k))
  (at level 10, x name, m at level 100, k at level 200, only parsing).
Notation "m '>>>' k" := (bind m (λ _, k))
  (at level 100, k at level 200, right associativity, only parsing).

(** [if err != nil { return errors.Join(errors.New(text), err) }]. *)
Definition wrap {A} (text : string) (m : M A) : M A :=
  λ w, match m w with
       | (Ok a, w') => (Ok a, w')
       | (Fail e, w') => (Fail (JoinError [New text; e]), w')
       | (Panic, w') => (Panic, w')
       end.

(** Run a call and hand its error back as a value ([nil] on success). *)
Definition attempt {A} (m : M A) : M (option error) :=
  λ w, match m w with
       | (Ok _, w') => (Ok None, w')
       | (Fail e, w') => (Ok (Some e), w')
       | (Panic, w') => (Panic, w')
       end.

(** Run a call and hand back either its error or its value. *)
Definition catch {A} (m : M A) : M (error + A) :=
  λ w, match m w with
       | (Ok a, w') => (Ok (inr a), w')
       | (Fail e, w') => (Ok (inl e), w')
       | (Panic, w') => (Panic, w')
       end.

(** [n] calls of [m] in a row, with their results. *)
Fixpoint calls {A} (n : nat) (m : M A) : M (list A) :=
  match n with
  | O => ret []
  | S n =>
      let* first := m in
      let* others := calls n m in
      ret (first :: others)
  end.

Definition log (e : event) : M unit := λ w, (Ok tt, add_event e w).

(** A system call that the oracle may refuse. *)
Definition guarded (o : op) (target : string) : M unit :=
  λ w, if fault w o target then (Fail (Sys o target), w) else (Ok tt, w).

(** ** System calls *)

(** [os.Stat]. *)
Definition os_Stat (path : string) : M node :=
  log (EStat path) >>>
  guarded OpStat path >>>
  λ w, match fs w !! path with
       | Some n => (Ok n, w)
       | None => (Fail (Sys OpStat path), w)
       end.

(** [os.Open]: the handle is the path.  Opening a directory succeeds
    (reading it does not); a link counts as dangling. *)
Definition os_Open (name : string) : M string :=
  log (EOpen name) >>>
  guarded OpOpen name >>>
  λ w, match fs w !! name with
       | Some NDir | Some (NFile _ _) => (Ok name, w)
       | _ => (Fail (Sys OpOpen name), w)
       end.

(** Reading an open file to its end ([io.Copy] from it, [io.ReadAll]). *)
Definition read_all (file : string) : M (list byte) :=
  log (ERead file) >>>
  guarded OpRead file >>>
  λ w, match fs w !! file with
       | Some (NFile _ data) => (Ok data, w)
       | _ => (Fail (Sys OpRead file), w)
       end.

Definition has_child (path : string) (m : gmap string node) : bool :=
  existsb (λ kv : string * node, String.prefix (path +:+ "/") kv.1) (map_to_list m).

(** [os.Remove]: a file, a link or an empty directory. *)
Definition os_Remove (path : string) : M unit :=
  log (ERemove path) >>>
  guarded OpRemove path >>>
  λ w, match fs w !! path with
       | None => (Fail (Sys OpRemove path), w)
       | Some NDir =>
           if has_child path (fs w) then (Fail (Sys OpRemove path), w)
           else (Ok tt, set_fs (delete path) w)
       | Some _ => (Ok tt, set_fs (delete path) w)
       end.

(** [os.MkdirAll path os.ModePerm]. *)
Definition os_MkdirAll (path : string) : M unit :=
  log (EMkdirAll path) >>>
  guarded OpMkdirAll path >>>
  λ w, match fs w !! path with
       | None => (Ok tt, set_fs <[path := NDir]> w)
       | Some NDir => (Ok tt, w)
       | Some _ => (Fail (Sys OpMkdirAll path), w)
       end.

(** [uint32(i.Perm())] plus the setuid, setgid and sticky bits, as
    [os.OpenFile] passes a [FileMode] to the system. *)
Definition syscallMode (mode : Z) : Z :=
  Z.lor (Z.land mode 511)
    (Z.lor (if Z.testbit mode 23 then 2048 else 0)
       (Z.lor (if Z.testbit mode 22 then 1024 else 0)
              (if Z.testbit mode 20 then 512 else 0))).

(** [os.OpenFile name (O_RDWR|O_CREATE|O_TRUNC) perms]: an existing file
    is emptied and keeps its mode, a missing one is created with
    [perms]. *)
Definition os_OpenFile_trunc (name : string) (perms : Z) : M string :=
  log (ECreate name) >>>
  guarded OpCreate name >>>
  λ w, match fs w !! name with
       | None => (Ok name, set_fs <[name := NFile (syscallMode perms) []]> w)
       | Some (NFile p _) => (Ok name, set_fs <[name := NFile p []]> w)
       | Some _ => (Fail (Sys OpCreate name), w)
       end.

(** [os.Create name] is [OpenFile] with mode 0666. *)
Definition os_Create (name : string) : M string := os_OpenFile_trunc name 438.

(** Writing at the end of an open file. *)
Definition write (file : string) (data : list byte) : M unit :=
  log (EWrite file data) >>>
  guarded OpWrite file >>>
  λ w, match fs w !! file with
       | Some (NFile p old) => (Ok tt, set_fs <[file := NFile p (old ++ data)]> w)
       | _ => (Fail (Sys OpWrite file), w)
       end.


(** [http.Get]. *)
Definition http_Get (url : string) : M Response :=
  log (EGet url) >>>
  guarded OpGet url >>>
  λ w, match net w !! url with
       | Some r => (Ok r, w)
       | None => (Fail (Sys OpGet url), w)
       end.

(** Reading a response body to its end. *)
Definition read_body (url : string) (response : Response) : M (list byte) :=
  log (EBody url) >>>
  if BodyBroken response then throw (Sys OpBody url) else ret (Body response).

(** [io.Copy(file, response.Body)]: the bytes that arrive are written,
    then a broken transfer reports its error. *)
Definition io_Copy_body (file url : string) (response : Response) : M unit :=
  log (EBody url) >>>
  write file (Body response) >>>
  if BodyBroken response then throw (Sys OpBody url) else ret tt.

(** ** Platform wrappers ([!windows] build) *)

Definition fileExists (path : string) : M bool :=
  let* err := attempt (os_Stat path) in
  ret (match err with None => true | Some _ => false end).

Definition openFile (name : string) : M string := os_Open name.
Definition createFile (name : string) : M string := os_Create name.
Definition createParents (path : string) : M unit := os_MkdirAll path.

(** ** Library functions the program calls *)

(** [sha1_hex] and [sha256_hex] stand for
    [hex.EncodeToString(digest.Sum(nil))] with [sha1.New()] and
    [sha256.New()]; [filepath_Dir] for [filepath.Dir]; [targz_open] for
    [gzip.NewReader] followed by [tar.NewReader]. *)
Record Header := {
  Typeflag : byte;
  Name : string;
  Linkname : string;
  Mode : Z
}.

(** What [tar.Reader.Next] hands out, call after call: the entries with
    their bytes, then [io.EOF] ([None]) or a decoding error. *)
Record TarStream := {
  entries : list (Header * list byte);
  ending : option error
}.

Class GoLib := {
  sha1_hex : list byte → string;
  sha256_hex : list byte → string;
  filepath_Dir : string → string;
  targz_open : list byte → error + TarStream
}.

Section Verifier.
Context `{GoLib}.

(** ** Integrity verifier (file.go) *)

(** The digest that the switch on [len(sha)] in [hashFile] picks. *)
Definition selected_digest (sha : string) : option (list byte → string) :=
  if (String.length sha =? 40)%nat then Some sha1_hex
  else if (String.length sha =? 64)%nat then Some sha256_hex
  else None.

(** [hashFile]. *)
Definition hashFile (path sha : string) : M bool :=
  let* file := wrap ("failed to hash file " +:+ path) (openFile path) in
  let hashSize := String.length sha in
  let* digest :=
    (if (hashSize =? 40)%nat then ret sha1_hex
     else if (hashSize =? 64)%nat then ret sha256_hex
     else throw (New ("Unknown hash size " +:+ decimal hashSize))) in
  let* data := wrap ("failed to hash file " +:+ path) (read_all file) in
  let calculated := digest data in
  ret (String.eqb calculated sha).

(** [validateHash]. *)
Definition validateHash (path hash : string) : M bool :=
  let* found := fileExists path in
  if found then
    let* result := wrap ("could not validate hash of " +:+ path) (hashFile path hash) in
    (if negb result
     then wrap ("could not delete corrupted file " +:+ path) (os_Remove path)
     else ret tt) >>>
    ret result
  else ret false.

(** ** Fetcher (http.go) *)

(** The part of [downloadFileRaw] after the cache check. *)
Definition download_transfer (path url : string) (hash : option string) : M unit :=
  wrap ("failed to create parents of " +:+ path) (createParents (filepath_Dir path)) >>>
  let* file := wrap ("failed to create file " +:+ path) (createFile path) in
  let* response := wrap ("failed to download " +:+ url) (http_Get url) in
  if negb (Z.eqb (Z.quot (StatusCode response) 100) 2)
  then throw (New ("failed to download " +:+ url +:+ ": " +:+ Status response))
  else
    let* err := attempt (io_Copy_body file url response) in
    match err with
    | Some err =>
        attempt (os_Remove path) >>>
        throw (JoinError [New ("failed to download " +:+ url); err])
    | None =>
        match hash with
        | Some h =>
            let* valid := wrap ("could not validate hash of " +:+ path) (validateHash path h) in
            if negb valid
            then throw (New ("download " +:+ path +:+ " failed to download"))
            else ret tt
        | None => ret tt
        end
    end.

(** [downloadFileRaw]. *)
Definition downloadFileRaw (path url : string) (hash : option string) : M unit :=
  match hash with
  | Some h =>
      let* valid := wrap ("failed to validate " +:+ path) (validateHash path h) in
      if valid then ret tt else download_transfer path url hash
  | None => download_transfer path url hash
  end.

(** The [Downloadable] interface.  A method may panic, so [url] lives in
    the monad; [hash] returns a pointer, [None] being nil. *)
Class Downloadable (A : Type) := {
  url : A → M string;
  hash : A → option string
}.

(** [downloadFile]. *)
Definition downloadFile {A} `{Downloadable A} (path : string) (downloadable : A) : M unit :=
  let* u := url downloadable in
  downloadFileRaw path u (hash downloadable).

(** [downloadJsonRaw].  [structure] is the value behind the pointer the
    caller passes; the function returns its error ([None] is nil)
    together with what that value is afterwards.  [unmarshal] is
    [json.Unmarshal] at the target's type: it returns its error and the
    target as it leaves it. *)
Definition downloadJsonRaw {T} (unmarshal : list byte → T → option error * T)
    (url : string) (hash : option string) (structure : T) : M (option error * T) :=
  let* fetched := catch (
    let* response := wrap ("failed to download " +:+ url) (http_Get url) in
    if negb (Z.eqb (Z.quot (StatusCode response) 100) 2)
    then throw (New ("failed to download " +:+ url +:+ ": " +:+ Status response))
    else
      let* buffer := wrap ("failed to copy " +:+ url +:+ " into a buffer")
                          (read_body url response) in
      (match hash with
       | Some h =>
           let calculated := sha1_hex buffer in
           if negb (String.eqb calculated h)
           then throw (New ("failed to verify hash of " +:+ url +:+ ", got " +:+ calculated
                              +:+ " and expected " +:+ h))
           else ret tt
       | None => ret tt
       end) >>>
      ret buffer) in
  match fetched with
  | inl err => ret (Some err, structure)
  | inr buffer =>
      match unmarshal buffer structure with
      | (Some err, structure') =>
          ret (Some (JoinError [New ("Failed to parse JSON of " +:+ url); err]), structure')
      | (None, structure') => ret (None, structure')
      end
  end.


(** ** Manifest records (the fields the orchestrator reads) *)

Definition URL_RESOURCES : string := "https://resources.download.minecraft.net/".

Record Artifact := {
  Artifact_Path : string;
  Artifact_Sha1 : string;
  Artifact_Size : Z;
  Artifact_Url : string
}.

Record Library := {
  Library_Artifact : Artifact;
  Library_Name : string;
  Library_Rules : list Rule
}.

Record AssetIndex := {
  AssetIndex_Id : string;
  AssetIndex_Sha1 : string;
  AssetIndex_Size : Z;
  AssetIndex_TotalSize : Z;
  AssetIndex_Url : string
}.

Record AssetEntry := {
  AssetEntry_Hash : string;
  AssetEntry_Size : Z
}.

(** [s[0:hi]]: a run-time panic when [hi] exceeds the length. *)
Definition slice_to (s : string) (hi : nat) : M string :=
  if (hi <=? String.length s)%nat then ret (substring 0 hi s) else panic.

#[export] Instance Artifact_Downloadable : Downloadable Artifact := {|
  url this := ret (Artifact_Url this);
  hash this := Some (Artifact_Sha1 this)
|}.

#[export] Instance AssetIndex_Downloadable : Downloadable AssetIndex := {|
  url this := ret (AssetIndex_Url this);
  hash this := Some (AssetIndex_Sha1 this)
|}.

#[export] Instance AssetEntry_Downloadable : Downloadable AssetEntry := {|
  url this :=
    let* prefix := slice_to (AssetEntry_Hash this) 2 in
    ret (URL_RESOURCES +:+ prefix +:+ "/" +:+ AssetEntry_Hash this);
  hash this := Some (AssetEntry_Hash this)
|}.

(** ** Download orchestrator *)

(** [err = errors.Join(err, <-channel)]. *)
Definition join_step (err sent : option error) : option error :=
  errors_Join [err; sent].

(** The receive loop
    [for i := 0; i < length; i++ { err = errors.Join(err, <-channel) }]
    run against the sequence of values sent on the channel, in arrival
    order.  It returns the error and the sends it left unreceived, or
    [None] when the channel runs dry and the receive blocks for ever. *)
Fixpoint collect (length : nat) (channel : list (option error)) (err : option error)
    : option (option error * list (option error)) :=
  match length with
  | O => Some (err, channel)
  | S n =>
      match channel with
      | [] => None
      | sent :: rest => collect n rest (join_step err sent)
      end
  end.


(** The goroutines of a batch run concurrently with each other and with
    the rest of the launch loop, which shares nothing with them but the
    channel.  The model runs each to completion, one at a time, in the
    order the scheduler picks: [order] lists the launch indices in that
    order.  Each unit sends its error (or nil) on the channel; a
    panicking unit ends the process. *)
Fixpoint run_units (units : list (M unit)) : M (list (option error)) :=
  match units with
  | [] => ret []
  | u :: rest =>
      let* sent := attempt u in
      let* others := run_units rest in
      ret (sent :: others)
  end.

Definition scheduled {A} (order : list nat) (units : list A) : list A :=
  omap (λ i, units !! i) order.

(** The launched units run, then the receive loop; a receive that can
    never be served ends the process (all goroutines are asleep). *)
Definition fan_out (order : list nat) (units : list (M unit)) (length : nat)
    : M (option error) :=
  let* channel := run_units (scheduled order units) in
  match collect length channel None with
  | Some (err, _) => ret err
  | None => panic
  end.

(** The body of the goroutine of [downloadAssets]. *)
Definition asset_unit (base : string) (entry : AssetEntry) : M unit :=
  let* prefix := slice_to (AssetEntry_Hash entry) 2 in
  let file := prefix +:+ "/" +:+ AssetEntry_Hash entry in
  let path := base +:+ "/assets/objects/" +:+ file in
  downloadFile path entry.

(** One iteration of the range over [manifest.Objects]: the state is
    the [downloaded] map and the entries whose goroutine was launched. *)
Definition asset_step (st : gmap string bool * list AssetEntry)
    (kv : string * AssetEntry) : gmap string bool * list AssetEntry :=
  let object := kv.2 in
  if default false (st.1 !! AssetEntry_Hash object) then st
  else (<[AssetEntry_Hash object := true]> st.1, (st.2 ++ [object])%list).

Definition asset_loop (objects : list (string * AssetEntry))
    : gmap string bool * list AssetEntry :=
  fold_left asset_step objects (∅, []).

(** [downloadAssets] from [channel := make(chan error)] on.  [objects]
    is [manifest.Objects] in the order the range statement visits
    it. *)
Definition downloadAssets_batch (order : list nat) (base : string)
    (objects : list (string * AssetEntry)) : M unit :=
  let '(downloaded, launched) := asset_loop objects in
  let length := size downloaded in
  let* err := fan_out order (asset_unit base <$> launched) length in
  match err with
  | Some err => throw err
  | None => ret tt
  end.

(** [downloadAssets].  [unmarshal] is [json.Unmarshal] into a fresh
    [AssetManifest], giving [Objects] in range order. *)
Definition downloadAssets
    (unmarshal : list byte → error + list (string * AssetEntry))
    (order : list nat) (base : string) (version_AssetIndex : AssetIndex) : M unit :=
  let jsonPath := base +:+ "/assets/indexes/" +:+ AssetIndex_Id version_AssetIndex +:+ ".json" in
  wrap "failed to download asset manifest" (downloadFile jsonPath version_AssetIndex) >>>
  let* file := wrap "failed to open assets file" (os_Open jsonPath) in
  let* buffer := wrap "failed to read assets file" (read_all file) in
  match unmarshal buffer with
  | inl err => throw (JoinError [New "failed to parse assets file"; err])
  | inr objects => downloadAssets_batch order base objects
  end.

(** One iteration of the loop of [downloadLibraries]: the state is
    [classpath] and the launched goroutines. *)
Definition library_step (pf : Platform) (base : string) (features : gmap string bool)
    (st : list string * list (M unit)) (library : Library) : list string * list (M unit) :=
  if negb (testRules pf (Library_Rules library) features) then st
  else
    let path := base +:+ "/library/" +:+ Artifact_Path (Library_Artifact library) in
    ((st.1 ++ [path])%list, (st.2 ++ [downloadFile path (Library_Artifact library)])%list).

Definition library_loop (pf : Platform) (base : string) (features : gmap string bool)
    (libraries : list Library) : list string * list (M unit) :=
  fold_left (library_step pf base features) libraries ([], []).


(** The dedup key in the words of the spec: the expected hash when
    present, else the destination path.  It is used to state what the
    two loops above do and do not do. *)
Definition dedup_key (expected_hash : option string) (destination_path : string) : string :=
  default destination_path expected_hash.

Definition library_path (base : string) (library : Library) : string :=
  base +:+ "/library/" +:+ Artifact_Path (Library_Artifact library).

Definition library_key (base : string) (library : Library) : string :=
  dedup_key (hash (Library_Artifact library)) (library_path base library).

(** The destination of an asset whose hash has at least two
    characters (with a shorter hash the goroutine panics). *)
Definition asset_path (base : string) (entry : AssetEntry) : string :=
  base +:+ "/assets/objects/" +:+ substring 0 2 (AssetEntry_Hash entry)
       +:+ "/" +:+ AssetEntry_Hash entry.

Definition asset_key (base : string) (entry : AssetEntry) : string :=
  dedup_key (hash entry) (asset_path base entry).

Definition library_allowed (pf : Platform) (features : gmap string bool)
    (library : Library) : bool :=
  testRules pf (Library_Rules library) features.

(** ** Archive extractor (jdk.go) *)

Definition TypeReg : byte := x30.
Definition TypeSymlink : byte := x32.
Definition TypeDir : byte := x35.







End Verifier.

(** * The rest of the launcher *)

(** ** Argument templating (jankyFormat) *)

(** [strings.Index(s, substr)]: the index of the first occurrence,
    [None] standing for -1. *)
Fixpoint strings_Index (s substr : string) : option nat :=
  if String.prefix substr s then Some 0%nat
  else match s with
       | EmptyString => None
       | String _ rest => S <$> strings_Index rest substr
       end.

(** [s[lo:hi]] for a string: [None] is the run-time panic (bounds out
    of range). *)
Definition slice (s : string) (lo hi : nat) : option string :=
  if (lo <=? hi)%nat && (hi <=? String.length s)%nat
  then Some (substring lo (hi - lo) s)
  else None.

(** How a call that loops ends: with a value, with a panic, or not
    within the given number of iterations. *)
Inductive outcome (A : Type) :=
| Returned (a : A)
| Panicked
| Unfinished.
Arguments Returned {A} a.
Arguments Panicked {A}.
Arguments Unfinished {A}.

(** [jankyFormat]; [fuel] bounds the iterations of the [for] loop.  An
    index of -1 in a slice expression panics. *)
Fixpoint jankyFormat (fuel : nat) (argument : string)
    (environment : gmap string string) : outcome string :=
  match fuel with
  | O => Unfinished
  | S fuel =>
      match strings_Index argument "${" with
      | None => Returned argument
      | Some start =>
          match strings_Index argument "}" with
          | None => Panicked
          | Some finish =>
              match slice argument (start + 2) finish with
              | None => Panicked
              | Some key =>
                  match environment !! key with
                  | None => Returned argument
                  | Some value =>
                      match slice argument 0 start,
                            slice argument (finish + 1) (String.length argument) with
                      | Some before, Some after =>
                          jankyFormat fuel (before +:+ value +:+ after) environment
                      | _, _ => Panicked
                      end
                  end
              end
          end
      end
  end.

(** [c] does not occur in [s]. *)
Fixpoint lacks (c : ascii) (s : string) : Prop :=
  match s with
  | EmptyString => True
  | String x rest => x ≠ c ∧ lacks c rest
  end.

(** [s] holds neither "$" nor "}". *)
Definition plain (s : string) : Prop := lacks "$" s ∧ lacks "}" s.

(** A template: texts followed by a placeholder each, then a last
    text; and what it should expand to. *)
Fixpoint template (parts : list (string * string)) (ending_text : string) : string :=
  match parts with
  | [] => ending_text
  | (text, key) :: rest => text +:+ "${" +:+ key +:+ "}" +:+ template rest ending_text
  end.

Fixpoint expansion (environment : gmap string string)
    (parts : list (string * string)) (ending_text : string) : string :=
  match parts with
  | [] => ending_text
  | (text, key) :: rest =>
      text +:+ default "" (environment !! key)
           +:+ expansion environment rest ending_text
  end.

(** ** Launch arguments (Argument.UnmarshalJSON) *)

(** What [json.Unmarshal] stores in an [interface{}]: nil, bool,
    float64 (kept as its 64 bits), string, [[]interface{}] or
    [map[string]interface{}]. *)
Inductive json :=
| JNull
| JBool (b : bool)
| JNumber (bits : Z)
| JString (s : string)
| JArray (items : list json)
| JObject (fields : gmap string json).

Record Argument := {
  Argument_Value : list string;
  Argument_Rules : list Rule
}.

(** The zero [Rule]. *)
Definition zero_Rule : Rule :=
  {| Action := ""; Features := ∅; OsArch := ""; OsName := "" |}.

(** [x.(string)] in its comma-ok form, also for a missing map entry. *)
Definition as_string (x : option json) : option string :=
  match x with Some (JString s) => Some s | _ => None end.

Definition as_object (x : option json) : option (gmap string json) :=
  match x with Some (JObject fields) => Some fields | _ => None end.

(** The loop over [rawFeatures]: every entry must be a bool. *)
Definition convert_features (rawFeatures : gmap string json) : option (gmap string bool) :=
  map_fold (λ key value acc,
              match acc, value with
              | Some features, JBool b => Some (<[key := b]> features)
              | _, _ => None
              end) (Some ∅) rawFeatures.

(** The body of the loop over [rules] for one element, after the
    assertion that it is an object: the decoded rule, or the error. *)
Definition convert_rule (rawRule : gmap string json) : error + Rule :=
  match as_string (rawRule !! "action") with
  | None => inl (New "rule had no action")
  | Some action =>
      match
        match as_object (rawRule !! "features") with
        | Some rawFeatures =>
            match convert_features rawFeatures with
            | Some features => inr features
            | None => inl (New "failed to convert rules features")
            end
        | None => inr (Features zero_Rule)
        end
      with
      | inl err => inl err
      | inr features =>
          let os :=
            match as_object (rawRule !! "os") with
            | Some rawOs =>
                (default (OsArch zero_Rule) (as_string (rawOs !! "arch")),
                 default (OsName zero_Rule) (as_string (rawOs !! "name")))
            | None => (OsArch zero_Rule, OsName zero_Rule)
            end in
          inr {| Action := action; Features := features; OsArch := os.1; OsName := os.2 |}
      end
  end.

(** The loop over [rules]: [this.Rules] grows by one rule per element;
    an element that is not an object panics, a bad rule returns its
    error with the rules appended so far. *)
Fixpoint convert_rules (rules : list json) (this_Rules : list Rule) : res unit * list Rule :=
  match rules with
  | [] => (Ok tt, this_Rules)
  | JObject rawRule :: rest =>
      match convert_rule rawRule with
      | inl err => (Fail err, this_Rules)
      | inr rule => convert_rules rest (this_Rules ++ [rule])
      end
  | _ :: _ => (Panic, this_Rules)
  end.

(** The loop over [rawValues]: an element that is not a string panics. *)
Fixpoint convert_values (rawValues : list json) (this_Value : list string)
    : res unit * list string :=
  match rawValues with
  | [] => (Ok tt, this_Value)
  | JString s :: rest => convert_values rest (this_Value ++ [s])
  | _ :: _ => (Panic, this_Value)
  end.

(** [Argument.UnmarshalJSON].  [decode] is [json.Unmarshal] into an
    [interface{}]; the result is what the call returns (nil, an error,
    or a panic) and the receiver as the call leaves it. *)
Definition Argument_UnmarshalJSON (decode : list byte → error + json)
    (this : Argument) (bytes : list byte) : res unit * Argument :=
  match decode bytes with
  | inl err => (Fail err, this)
  | inr (JString s) =>
      (Ok tt, {| Argument_Value := Argument_Value this ++ [s];
                 Argument_Rules := Argument_Rules this |})
  | inr (JObject object) =>
      let '(converted, this_Rules) :=
        match object !! "rules" with
        | Some (JArray rules) => convert_rules rules (Argument_Rules this)
        | Some _ => (Panic, Argument_Rules this)
        | None => (Ok tt, Argument_Rules this)
        end in
      match converted with
      | Ok _ =>
          match object !! "value" with
          | Some (JString s) =>
              (Ok tt, {| Argument_Value := Argument_Value this ++ [s];
                         Argument_Rules := this_Rules |})
          | Some (JArray rawValues) =>
              let '(appended, this_Value) :=
                convert_values rawValues (Argument_Value this) in
              (appended, {| Argument_Value := this_Value; Argument_Rules := this_Rules |})
          | Some _ =>
              (Ok tt, {| Argument_Value := Argument_Value this;
                         Argument_Rules := this_Rules |})
          | None =>
              (Fail (New "rule had no value"),
               {| Argument_Value := Argument_Value this; Argument_Rules := this_Rules |})
          end
      | Fail err =>
          (Fail err, {| Argument_Value := Argument_Value this; Argument_Rules := this_Rules |})
      | Panic =>
          (Panic, {| Argument_Value := Argument_Value this; Argument_Rules := this_Rules |})
      end
  | inr _ =>
      (Fail (New ("can't handle argument JSON: " +:+ string_of_list_byte bytes)), this)
  end.

(** The JSON shape of a rule and of a conditional argument, as the
    manifest writes them. *)
Definition rule_json (r : Rule) : json :=
  JObject {[ "action" := JString (Action r);
             "features" := JObject (JBool <$> Features r);
             "os" := JObject {[ "arch" := JString (OsArch r);
                                "name" := JString (OsName r) ]} ]}.

Definition argument_json (rules : list Rule) (values : list string) : json :=
  JObject {[ "rules" := JArray (rule_json <$> rules);
             "value" := JArray (JString <$> values) ]}.

(** ** JSON files (file.go) *)

(** [file.Write(p)]: the number of bytes written, which is all of them
    unless the call fails. *)
Definition file_Write (file : string) (p : list byte) : M nat :=
  write file p >>> ret (length p).

(** [data[lo:hi]] on a byte slice whose capacity is not exceeded by
    [hi]: a run-time panic outside [lo <= hi <= len(data)]. *)
Definition slice_bytes (data : list byte) (lo hi : nat) : M (list byte) :=
  if (lo <=? hi)%nat && (hi <=? length data)%nat
  then ret (take (hi - lo) (drop lo data))
  else panic.

(** [readJson]: the error ([None] is nil) and the target afterwards. *)
Definition readJson {T} (unmarshal : list byte → T → option error * T)
    (path : string) (structure : T) : M (option error * T) :=
  let* read := catch (
    let* file := wrap ("failed to open " +:+ path) (openFile path) in
    wrap ("failed to read " +:+ path) (read_all file)) in
  match read with
  | inl err => ret (Some err, structure)
  | inr buffer =>
      match unmarshal buffer structure with
      | (Some err, structure') =>
          ret (Some (JoinError [New ("failed to parse " +:+ path); err]), structure')
      | (None, structure') => ret (None, structure')
      end
  end.

(** The loop [for remaining > 0] of [writeJson]; [None] when it has not
    ended within [fuel] iterations. *)
Fixpoint write_loop (fuel : nat) (path file : string) (data : list byte)
    (offset remaining : nat) : M (option unit) :=
  if (0 <? remaining)%nat then
    match fuel with
    | O => ret None
    | S fuel =>
        let* chunk := slice_bytes data offset remaining in
        let* transferred := wrap ("failed to write file " +:+ path) (file_Write file chunk) in
        write_loop fuel path file data (offset + transferred) (remaining - transferred)
    end
  else ret (Some tt).

(** [writeJson].  [marshal] is [json.Marshal] at the type of
    [structure]. *)
Definition writeJson {T} (marshal : T → error + list byte) (fuel : nat)
    (path : string) (structure : T) : M (option unit) :=
  match marshal structure with
  | inl err => throw (JoinError [New ("failed to serialize JSON for " +:+ path); err])
  | inr data =>
      let* file := wrap ("failed to open file " +:+ path) (createFile path) in
      write_loop fuel path file data 0 (length data)
  end.

(** ** Version manifest (part of main.go) *)

Definition URL_VERSION_MANIFEST : string :=
  "https://piston-meta.mojang.com/mc/game/version_manifest_v2.json".

Record VersionInfo := {
  VersionInfo_Id : string;
  VersionInfo_Type : string;
  VersionInfo_Url : string;
  VersionInfo_Time : string;
  VersionInfo_ReleaseTime : string;
  VersionInfo_Sha1 : string;
  VersionInfo_ComplianceLevel : Z
}.


#[export] Instance VersionInfo_Downloadable : Downloadable VersionInfo := {|
  url this := ret (VersionInfo_Url this);
  hash this := Some (VersionInfo_Sha1 this)
|}.

Section Manifest.
Context `{GoLib}.

(** [downloadVersionManifest]. *)
Definition downloadVersionManifest {T} (unmarshal : list byte → T → option error * T)
    (manifest : T) : M (option error * T) :=
  downloadJsonRaw unmarshal URL_VERSION_MANIFEST None manifest.



End Manifest.

(** ** JDK releases (jdk.go) *)

Record AdoptiumVersion := {
  AdoptiumVersion_Build : Z;
  AdoptiumVersion_Major : Z;
  AdoptiumVersion_Minor : Z;
  AdoptiumVersion_OpenjdkVersion : string;
  AdoptiumVersion_Patch : Z;
  AdoptiumVersion_Security : Z;
  AdoptiumVersion_Semver : string
}.

(** The [less] function that [downloadJdk] hands to [sort.Slice], on
    the [VersionData] of the two releases. *)
Definition release_less (a b : AdoptiumVersion) : bool :=
  if negb (AdoptiumVersion_Major a =? AdoptiumVersion_Major b)%Z
  then (AdoptiumVersion_Major a <? AdoptiumVersion_Major b)%Z
  else if negb (AdoptiumVersion_Minor a =? AdoptiumVersion_Minor b)%Z
  then (AdoptiumVersion_Minor a <? AdoptiumVersion_Minor b)%Z
  else if negb (AdoptiumVersion_Security a =? AdoptiumVersion_Security b)%Z
  then (AdoptiumVersion_Security a <? AdoptiumVersion_Security b)%Z
  else (AdoptiumVersion_Build a <? AdoptiumVersion_Build b)%Z.

(** The fields [release_less] looks at. *)
Definition release_key (v : AdoptiumVersion) : Z * Z * Z * Z :=
  (AdoptiumVersion_Major v, AdoptiumVersion_Minor v,
   AdoptiumVersion_Security v, AdoptiumVersion_Build v).

(** ** Zip extraction (jdk.go) *)










(** ** The windows build of the platform wrappers (file.insane.go) *)

Module Windows.

(** [strings.ReplaceAll(path, "/", "\\")]. *)
Fixpoint insanifyPath (path : string) : string :=
  match path with
  | EmptyString => EmptyString
  | String c rest =>
      String (if Ascii.eqb c "/" then "\"%char else c) (insanifyPath rest)
  end.

(** [fileExists] as this build has it: [err != nil]. *)
Definition fileExists (path : string) : M bool :=
  let* err := attempt (os_Stat (insanifyPath path)) in
  ret (match err with None => false | Some _ => true end).

Definition openFile (name : string) : M string := os_Open (insanifyPath name).

Section Verifier.
Context `{GoLib}.

(** [hashFile] and [validateHash] of file.go, compiled against these
    wrappers. *)
Definition hashFile (path sha : string) : M bool :=
  let* file := wrap ("failed to hash file " +:+ path) (openFile path) in
  let hashSize := String.length sha in
  let* digest :=
    (if (hashSize =? 40)%nat then ret sha1_hex
     else if (hashSize =? 64)%nat then ret sha256_hex
     else throw (New ("Unknown hash size " +:+ decimal hashSize))) in
  let* data := wrap ("failed to hash file " +:+ path) (read_all file) in
  let calculated := digest data in
  ret (String.eqb calculated sha).

Definition validateHash (path hash : string) : M bool :=
  let* found := fileExists path in
  if found then
    let* result := wrap ("could not validate hash of " +:+ path) (hashFile path hash) in
    (if negb result
     then wrap ("could not delete corrupted file " +:+ path) (os_Remove path)
     else ret tt) >>>
    ret result
  else ret false.

End Verifier.
End Windows.

(** * Sample values *)

(** Stand-ins for the library functions, used to run the definitions on
    concrete worlds: a digest repeats the first byte of its input. *)
Definition sample_digest (width : nat) (data : list byte) : string :=
  string_of_list_ascii
    (repeat (match data with [] => "0"%char | b :: _ => ascii_of_byte b end) width).

Definition sample_Dir (path : string) : string := "dir-of:" +:+ path.

(** An archive with a directory, a regular file of mode 0644 and a
    link, and one that carries a FIFO after its directory. *)
Definition jdk_dir : Header :=
  {| Typeflag := TypeDir; Name := "jdk/"; Linkname := ""; Mode := 493 |}.
Definition jdk_release : Header :=
  {| Typeflag := TypeReg; Name := "jdk/release"; Linkname := ""; Mode := 420 |}.
Definition jdk_link : Header :=
  {| Typeflag := TypeSymlink; Name := "jdk/latest"; Linkname := "release"; Mode := 511 |}.
Definition jdk_fifo : Header :=
  {| Typeflag := x36; Name := "jdk/pipe"; Linkname := ""; Mode := 420 |}.

Definition jdk_stream : TarStream :=
  {| entries := [(jdk_dir, []); (jdk_release, [x4a; x44; x4b]); (jdk_link, [])];
     ending := None |}.

Definition fifo_stream : TarStream :=
  {| entries := [(jdk_dir, []); (jdk_fifo, []); (jdk_release, [x4a; x44; x4b])];
     ending := None |}.

Definition sample_targz (raw : list byte) : error + TarStream :=
  match raw with
  | [x1f; x8b] => inr jdk_stream
  | [x1f; x8b; x36] => inr fifo_stream
  | _ => inl (Lib "gzip: invalid header")
  end%byte.

Definition sample_lib : GoLib := {|
  sha1_hex := sample_digest 40;
  sha256_hex := sample_digest 64;
  filepath_Dir := sample_Dir;
  targz_open := sample_targz
|}.


Definition linux_amd64 : Platform := {| GOARCH := "amd64"; GOOS := "linux" |}.

Definition rule_windows_disallow : Rule :=
  {| Action := "disallow"; Features := ∅; OsArch := ""; OsName := "windows" |}.

Definition rule_demo_allow : Rule :=
  {| Action := "allow"; Features := {[ "demo" := false ]}; OsArch := ""; OsName := "" |}.

Definition features_demo_off : gmap string bool := {[ "demo" := false ]}.

Definition no_fault : op → string → bool := λ _ _, false.

Definition empty_world : World :=
  {| fs := ∅; net := ∅; fault := no_fault; trace := [] |}.

(** A cache that holds one file with the single byte "a". *)
Definition cached_world : World :=
  {| fs := {[ "cache/a.bin" := NFile 420 [x61] ]}; net := ∅;
     fault := no_fault; trace := [] |}.

Definition hash_a40 : string := sample_digest 40 [x61].
Definition hash_b40 : string := sample_digest 40 [x62].

(** A server that answers one URL with the body "a". *)
Definition json_world : World :=
  {| fs := ∅;
     net := {[ "http://m/v.json" :=
                 {| StatusCode := 200; Status := "200 OK"; Body := [x61];
                    BodyBroken := false |} ]};
     fault := no_fault; trace := [] |}.

(** A [json.Unmarshal] that accepts everything and stores the bytes. *)
Definition sample_unmarshal (buffer : list byte) (target : list byte)
    : option error * list byte := (None, buffer).

Definition artifact_a : Artifact :=
  {| Artifact_Path := "org/a/a.jar"; Artifact_Sha1 := hash_a40; Artifact_Size := 1;
     Artifact_Url := "http://m/a.jar" |}.

Definition artifact_b : Artifact :=
  {| Artifact_Path := "org/b/b.jar"; Artifact_Sha1 := hash_b40; Artifact_Size := 1;
     Artifact_Url := "http://m/b.jar" |}.

Definition library_a : Library :=
  {| Library_Artifact := artifact_a; Library_Name := "org:a:1"; Library_Rules := [] |}.

Definition library_b : Library :=
  {| Library_Artifact := artifact_b; Library_Name := "org:b:1"; Library_Rules := [] |}.

Definition asset (hash : string) : AssetEntry :=
  {| AssetEntry_Hash := hash; AssetEntry_Size := 1 |}.

(** Three objects, two of which share a hash. *)
Definition three_objects : list (string * AssetEntry) :=
  [("icons/a.png", asset hash_a40); ("icons/b.png", asset hash_b40);
   ("icons/a-copy.png", asset hash_a40)].

Definition hash_c40 : string := sample_digest 40 [x63].
Definition hash_d40 : string := sample_digest 40 [x64].
Definition hash_e40 : string := sample_digest 40 [x65].

Definition resource_url (hash : string) : string :=
  URL_RESOURCES +:+ substring 0 2 hash +:+ "/" +:+ hash.

Definition answer (code : Z) (status : string) (body : list byte) : Response :=
  {| StatusCode := code; Status := status; Body := body; BodyBroken := false |}.

(** Five objects with five hashes; the server has three of them. *)
Definition five_objects : list (string * AssetEntry) :=
  [("a", asset hash_a40); ("b", asset hash_b40); ("c", asset hash_c40);
   ("d", asset hash_d40); ("e", asset hash_e40)].

Definition five_world : World :=
  {| fs := ∅;
     net := {[ resource_url hash_a40 := answer 200 "200 OK" [x61];
               resource_url hash_b40 := answer 200 "200 OK" [x62];
               resource_url hash_c40 := answer 200 "200 OK" [x63];
               resource_url hash_d40 := answer 404 "404 Not Found" [];
               resource_url hash_e40 := answer 404 "404 Not Found" [] ]};
     fault := no_fault; trace := [] |}.

(** A server that answers 404, and a stale file at the destination. *)
Definition stale_world : World :=
  {| fs := {[ "cache/a.bin" := NFile 420 [x61] ]};
     net := {[ "http://m/a.bin" := answer 404 "404 Not Found" [x62] ]};
     fault := no_fault; trace := [] |}.

(** A server that answers one URL with the body "a"; nothing is cached
    yet. *)
Definition fetch_world : World :=
  {| fs := ∅; net := {[ "http://m/a.bin" := answer 200 "200 OK" [x61] ]};
     fault := no_fault; trace := [] |}.


(** A file in the working directory: its name has no slash. *)
Definition flat_world : World :=
  {| fs := {[ "a.bin" := NFile 420 [x61] ]}; net := ∅;
     fault := no_fault; trace := [] |}.

(** A [json.Marshal] that hands out the bytes it is given. *)
Definition sample_marshal (structure : list byte) : error + list byte := inr structure.


(** Launch variables: one plain value and one that names itself. *)
Definition sample_environment : gmap string string :=
  {[ "user" := "steve"; "self" := "${self}" ]}.

(** A [json.Unmarshal] that decodes every input to the same value. *)
Definition sample_decode (decoded : json) (bytes : list byte) : error + json :=
  inr decoded.

Definition no_argument : Argument := {| Argument_Value := []; Argument_Rules := [] |}.

Definition jdk_17_0_9 : AdoptiumVersion :=
  {| AdoptiumVersion_Build := 9; AdoptiumVersion_Major := 17; AdoptiumVersion_Minor := 0;
     AdoptiumVersion_OpenjdkVersion := "17.0.9+9"; AdoptiumVersion_Patch := 0;
     AdoptiumVersion_Security := 9; AdoptiumVersion_Semver := "17.0.9+9" |}.

Definition jdk_17_0_10 : AdoptiumVersion :=
  {| AdoptiumVersion_Build := 7; AdoptiumVersion_Major := 17; AdoptiumVersion_Minor := 0;
     AdoptiumVersion_OpenjdkVersion := "17.0.10+7"; AdoptiumVersion_Patch := 0;
     AdoptiumVersion_Security := 10; AdoptiumVersion_Semver := "17.0.10+7" |}.






(** * Properties *)

(** ** Rule evaluator *)

Lemma rule_loop_app pf features l1 l2 a :
  rule_loop pf features (l1 ++ l2) a
  = rule_loop pf features l2 (rule_loop pf features l1 a).
Proof. unfold rule_loop. apply fold_left_app. Qed.

Lemma rule_loop_cons pf features r l a :
  rule_loop pf features (r :: l) a
  = rule_loop pf features l (rule_step pf features a r).
Proof. reflexivity. Qed.

Lemma rule_loop_last_match pf features rules a :
  rule_loop pf features rules a
  = match last_match pf features rules with
    | Some r => Action r
    | None => a
    end.
Proof.
  unfold last_match.
  induction rules as [|r rules IH] using rev_ind; [reflexivity|].
  rewrite rule_loop_app, rev_app_distr. simpl.
  unfold rule_step. destruct (testRule pf r features); [reflexivity|exact IH].
Qed.

(** C1. The empty rule sequence allows.  For a non-empty one the
    decision starts as "disallow", every matching rule met in the given
    order overwrites it with its action, and the answer is whether the
    final decision is "allow"; that final decision is the action of the
    last matching rule, "disallow" when no rule matches. *)
Theorem testRules_last_match_wins pf features :
  testRules pf [] features = true
  ∧ (∀ r rules,
       testRules pf (r :: rules) features
       = String.eqb
           (fold_left (λ decision rule,
                         if testRule pf rule features then Action rule else decision)
                      (r :: rules) "disallow")
           "allow")
  ∧ (∀ r rules,
       testRules pf (r :: rules) features
       = match last_match pf features (r :: rules) with
         | Some decisive => String.eqb (Action decisive) "allow"
         | None => false
         end).
Proof.
  split; [reflexivity|]. split.
  - intros r rules. reflexivity.
  - intros r rules. unfold testRules.
    change (List.length (r :: rules) =? 0)%nat with false. cbv iota.
    rewrite rule_loop_last_match.
    destruct (last_match pf features (r :: rules)); reflexivity.
Qed.

(** The example of the spec: a later match overrides. *)
Example testRules_later_match_overrides :
  testRules linux_amd64 [rule_windows_disallow; rule_demo_allow] features_demo_off = true.
Proof. vm_compute. reflexivity. Qed.

Lemma features_agree_spec (required features : gmap string bool) :
  forallb (λ kv : string * bool,
             match features !! kv.1 with
             | None => false
             | Some value => Bool.eqb value kv.2
             end) (map_to_list required) = true
  ↔ ∀ k v, required !! k = Some v → features !! k = Some v.
Proof.
  rewrite forallb_forall. split.
  - intros Hall k v Hkv.
    specialize (Hall (k, v)). simpl in Hall.
    assert (Hin : In (k, v) (map_to_list required)).
    { apply list_elem_of_In. by apply elem_of_map_to_list. }
    specialize (Hall Hin).
    destruct (features !! k) as [value|]; [|discriminate].
    apply Bool.eqb_prop in Hall. by subst.
  - intros Hall [k v] Hin. simpl.
    apply list_elem_of_In, elem_of_map_to_list in Hin.
    rewrite (Hall k v Hin). apply Bool.eqb_reflx.
Qed.

Lemma os_field_spec (current wanted : string) :
  nonempty wanted && negb (String.eqb current wanted) = false
  ↔ wanted = "" ∨ current = wanted.
Proof.
  unfold nonempty.
  destruct (String.eqb_spec wanted "") as [->|Hne]; simpl.
  - split; [by left|done].
  - destruct (String.eqb_spec current wanted) as [->|Hne']; simpl.
    + split; [by right|done].
    + split; [done|]. intros [?|?]; done.
Qed.

Lemma testRule_true_iff pf this features :
  testRule pf this features = true
  ↔ (∀ k v, Features this !! k = Some v → features !! k = Some v)
    ∧ (OsArch this = "" ∨ GOARCH pf = OsArch this)
    ∧ (OsName this = "" ∨ GOOS pf = OsName this).
Proof.
  rewrite <- features_agree_spec, <- !os_field_spec.
  unfold testRule.
  destruct (forallb _ _), (nonempty (OsArch this) && _),
    (nonempty (OsName this) && _); simpl; intuition congruence.
Qed.

(** C8. A rule matches exactly when every required feature is in the
    feature set with the same value, its architecture is unset or the
    current one, and its OS name is unset or the current one.  A rule
    that requires a feature the set lacks does not match, leaves the
    running decision as it is, and can be dropped from any rule
    sequence without changing what the loop computes. *)
Theorem testRule_matches_iff pf this features :
  (testRule pf this features = true
   ↔ (∀ k v, Features this !! k = Some v → features !! k = Some v)
     ∧ (OsArch this = "" ∨ GOARCH pf = OsArch this)
     ∧ (OsName this = "" ∨ GOOS pf = OsName this))
  ∧ (∀ k, is_Some (Features this !! k) → features !! k = None →
       testRule pf this features = false
       ∧ (∀ decision, rule_step pf features decision this = decision)
       ∧ (∀ before after decision,
            rule_loop pf features (before ++ this :: after) decision
            = rule_loop pf features (before ++ after) decision)).
Proof.
  split; [apply testRule_true_iff|].
  intros k [v Hk] Hmissing.
  assert (Hno : testRule pf this features = false).
  { destruct (testRule pf this features) eqn:Hm; [|reflexivity].
    apply testRule_true_iff in Hm as [Hall _].
    specialize (Hall k v Hk). congruence. }
  assert (Hstep : ∀ decision, rule_step pf features decision this = decision).
  { intros decision. unfold rule_step. by rewrite Hno. }
  split; [exact Hno|]. split; [exact Hstep|].
  intros before after decision.
  rewrite !rule_loop_app, rule_loop_cons. by rewrite Hstep.
Qed.

Lemma testRule_matches_iff_witness :
  testRule linux_amd64 rule_demo_allow ∅ = false
  ∧ testRule linux_amd64 rule_demo_allow features_demo_off = true.
Proof.
  split.
  - apply (proj2 (testRule_matches_iff linux_amd64 rule_demo_allow ∅) "demo").
    + exists false. reflexivity.
    + reflexivity.
  - apply (proj1 (testRule_matches_iff linux_amd64 rule_demo_allow features_demo_off)).
    split; [|split; left; reflexivity].
    intros k v. unfold rule_demo_allow, features_demo_off. simpl. trivial.
Defined.

(** ** Running monadic code *)

Lemma bind_ok {A B} (m : M A) (k : A → M B) w a w' :
  m w = (Ok a, w') → bind m k w = k a w'.
Proof. unfold bind. by intros ->. Qed.

Lemma bind_fail {A B} (m : M A) (k : A → M B) w e w' :
  m w = (Fail e, w') → bind m k w = (Fail e, w').
Proof. unfold bind. by intros ->. Qed.


Lemma wrap_ok {A} text (m : M A) w a w' :
  m w = (Ok a, w') → wrap text m w = (Ok a, w').
Proof. unfold wrap. by intros ->. Qed.

Lemma wrap_fail {A} text (m : M A) w e w' :
  m w = (Fail e, w') → wrap text m w = (Fail (JoinError [New text; e]), w').
Proof. unfold wrap. by intros ->. Qed.

Lemma attempt_ok {A} (m : M A) w a w' :
  m w = (Ok a, w') → attempt m w = (Ok None, w').
Proof. unfold attempt. by intros ->. Qed.

Lemma attempt_fail {A} (m : M A) w e w' :
  m w = (Fail e, w') → attempt m w = (Ok (Some e), w').
Proof. unfold attempt. by intros ->. Qed.

Lemma catch_ok {A} (m : M A) w a w' :
  m w = (Ok a, w') → catch m w = (Ok (inr a), w').
Proof. unfold catch. by intros ->. Qed.

Lemma catch_fail {A} (m : M A) w e w' :
  m w = (Fail e, w') → catch m w = (Ok (inl e), w').
Proof. unfold catch. by intros ->. Qed.

Lemma add_events_app es1 es2 w :
  add_events es2 (add_events es1 w) = add_events (es1 ++ es2) w.
Proof. unfold add_events. simpl. by rewrite app_assoc. Qed.

(** A guarded system call: the call is logged, the oracle is asked,
    then the file system decides. *)
Lemma syscall_run {A} e o target (body : M A) w :
  fault w o target = false →
  (log e >>> guarded o target >>> body) w = body (add_events [e] w).
Proof.
  intros Hf. unfold bind, log, guarded. simpl. by rewrite Hf.
Qed.

Lemma syscall_refused {A} e o target (body : M A) w :
  fault w o target = true →
  (log e >>> guarded o target >>> body) w = (Fail (Sys o target), add_events [e] w).
Proof.
  intros Hf. unfold bind, log, guarded. simpl. by rewrite Hf.
Qed.

Lemma os_Stat_found path n w :
  fault w OpStat path = false → fs w !! path = Some n →
  os_Stat path w = (Ok n, add_events [EStat path] w).
Proof. intros Hf Hn. unfold os_Stat. rewrite syscall_run by done. simpl. by rewrite Hn. Qed.

Lemma os_Stat_missing path w :
  fs w !! path = None →
  os_Stat path w = (Fail (Sys OpStat path), add_events [EStat path] w).
Proof.
  intros Hn. unfold os_Stat.
  destruct (fault w OpStat path) eqn:Hf.
  - by rewrite syscall_refused.
  - rewrite syscall_run by done. simpl. by rewrite Hn.
Qed.

Lemma fileExists_found path n w :
  fault w OpStat path = false → fs w !! path = Some n →
  fileExists path w = (Ok true, add_events [EStat path] w).
Proof.
  intros Hf Hn. unfold fileExists.
  erewrite bind_ok; [|eapply attempt_ok, os_Stat_found; eassumption]. done.
Qed.

Lemma fileExists_missing path w :
  fs w !! path = None →
  fileExists path w = (Ok false, add_events [EStat path] w).
Proof.
  intros Hn. unfold fileExists.
  erewrite bind_ok; [|eapply attempt_fail, os_Stat_missing; eassumption]. done.
Qed.

Lemma os_Open_file name perm data w :
  fault w OpOpen name = false → fs w !! name = Some (NFile perm data) →
  os_Open name w = (Ok name, add_events [EOpen name] w).
Proof. intros Hf Hn. unfold os_Open. rewrite syscall_run by done. simpl. by rewrite Hn. Qed.

Lemma os_Open_missing name w :
  fs w !! name = None →
  os_Open name w = (Fail (Sys OpOpen name), add_events [EOpen name] w).
Proof.
  intros Hn. unfold os_Open.
  destruct (fault w OpOpen name) eqn:Hf.
  - by rewrite syscall_refused.
  - rewrite syscall_run by done. simpl. by rewrite Hn.
Qed.

Lemma read_all_file file perm data w :
  fault w OpRead file = false → fs w !! file = Some (NFile perm data) →
  read_all file w = (Ok data, add_events [ERead file] w).
Proof. intros Hf Hn. unfold read_all. rewrite syscall_run by done. simpl. by rewrite Hn. Qed.

Lemma os_Remove_file path perm data w :
  fault w OpRemove path = false → fs w !! path = Some (NFile perm data) →
  os_Remove path w = (Ok tt, set_fs (delete path) (add_events [ERemove path] w)).
Proof. intros Hf Hn. unfold os_Remove. rewrite syscall_run by done. simpl. by rewrite Hn. Qed.

Lemma os_Remove_refused path w :
  fault w OpRemove path = true →
  os_Remove path w = (Fail (Sys OpRemove path), add_events [ERemove path] w).
Proof. intros Hf. unfold os_Remove. by rewrite syscall_refused. Qed.

(** ** Integrity verifier *)

Section VerifierProperties.
Context `{GoLib}.

Lemma hashFile_file path sha perm data w :
  fault w OpOpen path = false → fault w OpRead path = false →
  fs w !! path = Some (NFile perm data) →
  hashFile path sha w
  = match selected_digest sha with
    | Some digest =>
        (Ok (String.eqb (digest data) sha), add_events [EOpen path; ERead path] w)
    | None =>
        (Fail (New ("Unknown hash size " +:+ decimal (String.length sha))),
         add_events [EOpen path] w)
    end.
Proof.
  intros Ho Hr Hn. unfold hashFile, selected_digest, openFile.
  erewrite bind_ok; [|eapply wrap_ok, os_Open_file; eassumption].
  destruct (String.length sha =? 40)%nat; [|destruct (String.length sha =? 64)%nat].
  - erewrite bind_ok by reflexivity.
    erewrite bind_ok; [|eapply wrap_ok, read_all_file; eassumption].
    by rewrite add_events_app.
  - erewrite bind_ok by reflexivity.
    erewrite bind_ok; [|eapply wrap_ok, read_all_file; eassumption].
    by rewrite add_events_app.
  - by erewrite bind_fail by reflexivity.
Qed.



Lemma validateHash_missing path hash w :
  fs w !! path = None →
  validateHash path hash w = (Ok false, add_events [EStat path] w).
Proof.
  intros Hn. unfold validateHash.
  by erewrite bind_ok; [|apply fileExists_missing].
Qed.

Lemma validateHash_match path hash perm data digest w :
  fs w !! path = Some (NFile perm data) →
  fault w OpStat path = false → fault w OpOpen path = false →
  fault w OpRead path = false →
  selected_digest hash = Some digest → digest data = hash →
  validateHash path hash w
  = (Ok true, add_events [EStat path; EOpen path; ERead path] w).
Proof.
  intros Hn Hs Ho Hr Hsel Heq. unfold validateHash.
  erewrite bind_ok; [|eapply fileExists_found; eassumption].
  cbv beta iota.
  erewrite bind_ok; [|eapply wrap_ok; erewrite hashFile_file by eassumption;
                      rewrite Hsel; reflexivity].
  rewrite Heq, String.eqb_refl. cbn [negb]. cbv beta iota.
  erewrite bind_ok by reflexivity. by rewrite add_events_app.
Qed.

Lemma validateHash_mismatch path hash perm data digest w :
  fs w !! path = Some (NFile perm data) →
  fault w OpStat path = false → fault w OpOpen path = false →
  fault w OpRead path = false →
  selected_digest hash = Some digest → digest data ≠ hash →
  validateHash path hash w
  = if fault w OpRemove path
    then (Fail (JoinError [New ("could not delete corrupted file " +:+ path);
                           Sys OpRemove path]),
          add_events [EStat path; EOpen path; ERead path; ERemove path] w)
    else (Ok false,
          set_fs (delete path)
            (add_events [EStat path; EOpen path; ERead path; ERemove path] w)).
Proof.
  intros Hn Hs Ho Hr Hsel Hne. unfold validateHash.
  erewrite bind_ok; [|eapply fileExists_found; eassumption].
  cbv beta iota.
  erewrite bind_ok; [|eapply wrap_ok; erewrite hashFile_file by eassumption;
                      rewrite Hsel; reflexivity].
  apply String.eqb_neq in Hne. rewrite Hne. cbn [negb]. cbv beta iota.
  rewrite add_events_app. cbn [app].
  destruct (fault w OpRemove path) eqn:Hrm.
  - erewrite bind_fail; [|eapply wrap_fail, os_Remove_refused; exact Hrm].
    by rewrite add_events_app.
  - erewrite bind_ok; [|eapply wrap_ok, os_Remove_file; [exact Hrm|exact Hn]].
    by rewrite add_events_app.
Qed.

Lemma quiet_filter (keep : event → bool) es w :
  forallb (λ e, negb (keep e)) es = true →
  List.filter keep (trace (add_events es w)) = List.filter keep (trace w).
Proof.
  intros Hq. simpl. rewrite List.filter_app.
  assert (List.filter keep es = []) as ->; [|by rewrite app_nil_r].
  induction es as [|e es IH]; [done|]. simpl in *.
  apply andb_prop in Hq as [He Hes]. destruct (keep e); [done|]. by apply IH.
Qed.

(** C6. For a readable file whose digest (by the algorithm the hash
    length selects) differs from the expected hash, [validateHash]
    deletes the file and returns false without an error, and when the
    deletion is refused it returns the error of the deletion instead.
    For a file whose digest equals the hash it returns true and only
    stats, opens and reads the file; any number of calls in a row all
    return true and leave the file system and the network untouched. *)
Theorem validateHash_heals_or_confirms path hash perm data digest w :
  fs w !! path = Some (NFile perm data) →
  fault w OpStat path = false → fault w OpOpen path = false →
  fault w OpRead path = false →
  selected_digest hash = Some digest →
  (digest data ≠ hash →
     (fault w OpRemove path = false →
        ∃ w', validateHash path hash w = (Ok false, w') ∧ fs w' !! path = None)
     ∧ (fault w OpRemove path = true →
        ∃ w', validateHash path hash w
              = (Fail (JoinError [New ("could not delete corrupted file " +:+ path);
                                  Sys OpRemove path]), w')))
  ∧ (digest data = hash →
     validateHash path hash w
     = (Ok true, add_events [EStat path; EOpen path; ERead path] w)
     ∧ ∀ n, ∃ w',
         calls n (validateHash path hash) w = (Ok (repeat true n), w')
         ∧ fs w' = fs w ∧ net w' = net w
         ∧ List.filter is_mutation (trace w') = List.filter is_mutation (trace w)
         ∧ List.filter is_network (trace w') = List.filter is_network (trace w)).
Proof.
  intros Hn Hs Ho Hr Hsel. split.
  - intros Hne. pose proof (validateHash_mismatch _ _ _ _ _ _ Hn Hs Ho Hr Hsel Hne) as Hv.
    split; intros Hrm; rewrite Hrm in Hv; eexists; (split; [exact Hv|]) || exact Hv.
    simpl. apply lookup_delete_eq.
  - intros Heq. split; [by eapply validateHash_match|].
    intros n. revert w Hn Hs Ho Hr.
    induction n as [|n IH]; intros w Hn Hs Ho Hr.
    + exists w. done.
    + destruct (IH (add_events [EStat path; EOpen path; ERead path] w) Hn Hs Ho Hr)
        as (w' & Hrun & Hfs & Hnet & Hmut & Hnw).
      exists w'. simpl calls.
      erewrite bind_ok; [|eapply validateHash_match; eassumption].
      erewrite bind_ok; [|exact Hrun].
      split; [done|]. split; [done|]. split; [done|].
      split; [rewrite Hmut|rewrite Hnw]; by apply quiet_filter.
Qed.

(** ** Fetcher *)

(** C5. When the destination already holds a readable file whose digest
    (by the algorithm the hash length selects) equals the expected
    hash, [downloadFileRaw] returns nil at once: it stats, opens and
    reads the file and does nothing else, so no network request is
    issued and nothing is written. *)
Theorem downloadFileRaw_cache_hit path url hash perm data digest w :
  fs w !! path = Some (NFile perm data) →
  fault w OpStat path = false → fault w OpOpen path = false →
  fault w OpRead path = false →
  selected_digest hash = Some digest → digest data = hash →
  ∃ w',
    downloadFileRaw path url (Some hash) w = (Ok tt, w')
    ∧ w' = add_events [EStat path; EOpen path; ERead path] w
    ∧ fs w' = fs w
    ∧ List.filter is_network (trace w') = List.filter is_network (trace w)
    ∧ List.filter is_mutation (trace w') = List.filter is_mutation (trace w).
Proof.
  intros Hn Hs Ho Hr Hsel Heq. eexists. split; [|split; [reflexivity|]].
  - unfold downloadFileRaw.
    erewrite bind_ok; [|eapply wrap_ok, validateHash_match; eassumption].
    reflexivity.
  - split; [done|]. split; by apply quiet_filter.
Qed.


End VerifierProperties.

Lemma validateHash_heals_or_confirms_witness :
  (∃ w', @validateHash sample_lib "cache/a.bin" hash_b40 cached_world = (Ok false, w')
         ∧ fs w' !! "cache/a.bin" = None)
  ∧ @validateHash sample_lib "cache/a.bin" hash_a40 cached_world
    = (Ok true,
       add_events [EStat "cache/a.bin"; EOpen "cache/a.bin"; ERead "cache/a.bin"]
         cached_world).
Proof.
  split.
  - refine (proj1 (proj1 (@validateHash_heals_or_confirms sample_lib
              "cache/a.bin" hash_b40 420 [x61] (sample_digest 40) cached_world
              eq_refl eq_refl eq_refl eq_refl eq_refl) _) eq_refl).
    intros Heq. vm_compute in Heq. discriminate.
  - exact (proj1 (proj2 (@validateHash_heals_or_confirms sample_lib
              "cache/a.bin" hash_a40 420 [x61] (sample_digest 40) cached_world
              eq_refl eq_refl eq_refl eq_refl eq_refl) eq_refl)).
Defined.



Lemma downloadFileRaw_cache_hit_witness :
  ∃ w', @downloadFileRaw sample_lib "cache/a.bin" "http://m/a.bin" (Some hash_a40) cached_world
        = (Ok tt, w')
        ∧ fs w' = fs cached_world ∧ List.filter is_network (trace w') = [].
Proof.
  destruct (@downloadFileRaw_cache_hit sample_lib "cache/a.bin" "http://m/a.bin"
              hash_a40 420 [x61] (sample_digest 40) cached_world
              eq_refl eq_refl eq_refl eq_refl eq_refl eq_refl)
    as (w' & Hrun & _ & Hfs & Hnet & _).
  exists w'. split; [exact Hrun|]. split; [exact Hfs|exact Hnet].
Defined.


(** ** More system calls *)

Lemma os_MkdirAll_ok path w :
  fault w OpMkdirAll path = false →
  fs w !! path = None ∨ fs w !! path = Some NDir →
  ∃ w1, os_MkdirAll path w = (Ok tt, w1)
        ∧ trace w1 = trace w ++ [EMkdirAll path]
        ∧ fault w1 = fault w ∧ net w1 = net w
        ∧ fs w1 !! path = Some NDir
        ∧ ∀ q, q ≠ path → fs w1 !! q = fs w !! q.
Proof.
  intros Hf Hn. unfold os_MkdirAll. rewrite syscall_run by done. simpl.
  destruct Hn as [Hn|Hn]; rewrite Hn; eexists; (split; [reflexivity|]); simpl.
  - split_and!; try done; [apply lookup_insert_eq|].
    intros q Hq. by apply lookup_insert_ne.
  - split_and!; done.
Qed.

Lemma os_OpenFile_trunc_ok name perms w :
  fault w OpCreate name = false →
  fs w !! name = None ∨ (∃ perm data, fs w !! name = Some (NFile perm data)) →
  ∃ w1, os_OpenFile_trunc name perms w = (Ok name, w1)
        ∧ trace w1 = trace w ++ [ECreate name]
        ∧ fault w1 = fault w ∧ net w1 = net w
        ∧ fs w1 !! name
          = Some (NFile (match fs w !! name with
                         | Some (NFile perm _) => perm
                         | _ => syscallMode perms
                         end) [])
        ∧ ∀ q, q ≠ name → fs w1 !! q = fs w !! q.
Proof.
  intros Hf Hn. unfold os_OpenFile_trunc. rewrite syscall_run by done. simpl.
  destruct Hn as [Hn | (perm & data & Hn)]; rewrite Hn; eexists;
    (split; [reflexivity|]); simpl;
    (split_and!; try done; [apply lookup_insert_eq|]);
    intros q Hq; by apply lookup_insert_ne.
Qed.

Lemma http_Get_found url response w :
  fault w OpGet url = false → net w !! url = Some response →
  http_Get url w = (Ok response, add_events [EGet url] w).
Proof. intros Hf Hn. unfold http_Get. rewrite syscall_run by done. simpl. by rewrite Hn. Qed.

Lemma http_Get_failed url w :
  fault w OpGet url = true ∨ net w !! url = None →
  http_Get url w = (Fail (Sys OpGet url), add_events [EGet url] w).
Proof.
  intros Hn. unfold http_Get.
  destruct (fault w OpGet url) eqn:Hf.
  - by rewrite syscall_refused.
  - rewrite syscall_run by done. simpl. destruct Hn as [?| ->]; done.
Qed.

Lemma write_file file perm old data w :
  fault w OpWrite file = false → fs w !! file = Some (NFile perm old) →
  write file data w
  = (Ok tt, set_fs <[file := NFile perm (old ++ data)]> (add_events [EWrite file data] w)).
Proof. intros Hf Hn. unfold write. rewrite syscall_run by done. simpl. by rewrite Hn. Qed.

Lemma io_Copy_body_file file url response perm old w :
  fault w OpWrite file = false → fs w !! file = Some (NFile perm old) →
  io_Copy_body file url response w
  = (if BodyBroken response then Fail (Sys OpBody url) else Ok tt,
     set_fs <[file := NFile perm (old ++ Body response)]>
       (add_events [EBody url; EWrite file (Body response)] w)).
Proof.
  intros Hf Hn. unfold io_Copy_body.
  erewrite bind_ok by reflexivity. cbv beta.
  erewrite bind_ok; [|eapply write_file; [exact Hf|exact Hn]].
  change (add_events [EWrite file (Body response)] (add_event (EBody url) w))
    with (add_events [EWrite file (Body response)] (add_events [EBody url] w)).
  rewrite add_events_app.
  by destruct (BodyBroken response).
Qed.

Section FetcherProperties.
Context `{GoLib}.

(** What [download_transfer] does up to the response: the directory,
    the emptied destination, the request. *)
Lemma download_transfer_until_response path url hash w :
  fault w OpMkdirAll (filepath_Dir path) = false →
  fs w !! filepath_Dir path = None ∨ fs w !! filepath_Dir path = Some NDir →
  filepath_Dir path ≠ path →
  fault w OpCreate path = false →
  fs w !! path = None ∨ (∃ perm data, fs w !! path = Some (NFile perm data)) →
  ∃ w2 perm,
    fs w2 !! path = Some (NFile perm [])
    ∧ trace w2 = trace w ++ [EMkdirAll (filepath_Dir path); ECreate path]
    ∧ fault w2 = fault w ∧ net w2 = net w
    ∧ download_transfer path url hash w
      = (let* response := wrap ("failed to download " +:+ url) (http_Get url) in
         if negb (Z.eqb (Z.quot (StatusCode response) 100) 2)
         then throw (New ("failed to download " +:+ url +:+ ": " +:+ Status response))
         else
           let* err := attempt (io_Copy_body path url response) in
           match err with
           | Some err =>
               attempt (os_Remove path) >>>
               throw (JoinError [New ("failed to download " +:+ url); err])
           | None =>
               match hash with
               | Some h =>
                   let* valid := wrap ("could not validate hash of " +:+ path)
                                      (validateHash path h) in
                   if negb valid
                   then throw (New ("download " +:+ path +:+ " failed to download"))
                   else ret tt
               | None => ret tt
               end
           end) w2.
Proof.
  intros Hmf Hmd Hne Hcf Hcn.
  destruct (os_MkdirAll_ok _ _ Hmf Hmd) as (w1 & Hmk & Ht1 & Hf1 & Hn1 & _ & Hfs1).
  destruct (os_OpenFile_trunc_ok path 438 w1) as (w2 & Hcr & Ht2 & Hf2 & Hn2 & Hfs2 & _).
  { by rewrite Hf1. }
  { rewrite Hfs1 by done. exact Hcn. }
  exists w2. eexists. split; [exact Hfs2|].
  split; [by rewrite Ht2, Ht1, <- app_assoc|].
  split; [congruence|]. split; [congruence|].
  unfold download_transfer, createParents, createFile, os_Create.
  erewrite bind_ok; [|eapply wrap_ok; exact Hmk]. cbv beta.
  erewrite bind_ok; [|eapply wrap_ok; exact Hcr]. reflexivity.
Qed.


Lemma downloadFileRaw_cache_miss path url hash w w0 :
  (hash = None ∧ w0 = w)
  ∨ (∃ h, hash = Some h ∧ validateHash path h w = (Ok false, w0)) →
  downloadFileRaw path url hash w = download_transfer path url hash w0.
Proof.
  intros [[-> ->] | (h & -> & Hv)]; [reflexivity|].
  unfold downloadFileRaw.
  by erewrite bind_ok; [|eapply wrap_ok; exact Hv].
Qed.

(** C10. A fetch that is not a cache hit creates the directory, opens
    the destination (emptying whatever it held) and only then issues
    the request.  When the response is not 2xx the fetch returns the
    download error and the empty file stays at the destination: nothing
    removes it.  The same holds when the request itself fails.  When
    the response is 2xx and the body transfer breaks, the partial file
    is removed. *)
Theorem downloadFileRaw_failed_response_keeps_empty_file path url hash w w0 :
  (hash = None ∧ w0 = w)
  ∨ (∃ h, hash = Some h ∧ validateHash path h w = (Ok false, w0)) →
  fault w0 OpMkdirAll (filepath_Dir path) = false →
  fs w0 !! filepath_Dir path = None ∨ fs w0 !! filepath_Dir path = Some NDir →
  filepath_Dir path ≠ path →
  fault w0 OpCreate path = false →
  fs w0 !! path = None ∨ (∃ perm data, fs w0 !! path = Some (NFile perm data)) →
  (∀ response,
     fault w0 OpGet url = false → net w0 !! url = Some response →
     Z.quot (StatusCode response) 100 ≠ 2 →
     ∃ w' perm,
       downloadFileRaw path url hash w
       = (Fail (New ("failed to download " +:+ url +:+ ": " +:+ Status response)), w')
       ∧ fs w' !! path = Some (NFile perm [])
       ∧ trace w' = trace w0 ++ [EMkdirAll (filepath_Dir path); ECreate path; EGet url])
  ∧ (fault w0 OpGet url = true ∨ net w0 !! url = None →
     ∃ w' perm,
       downloadFileRaw path url hash w
       = (Fail (JoinError [New ("failed to download " +:+ url); Sys OpGet url]), w')
       ∧ fs w' !! path = Some (NFile perm [])
       ∧ trace w' = trace w0 ++ [EMkdirAll (filepath_Dir path); ECreate path; EGet url])
  ∧ (∀ response,
     fault w0 OpGet url = false → net w0 !! url = Some response →
     Z.quot (StatusCode response) 100 = 2 → BodyBroken response = true →
     fault w0 OpWrite path = false → fault w0 OpRemove path = false →
     ∃ w',
       downloadFileRaw path url hash w
       = (Fail (JoinError [New ("failed to download " +:+ url); Sys OpBody url]), w')
       ∧ fs w' !! path = None
       ∧ trace w' = trace w0 ++ [EMkdirAll (filepath_Dir path); ECreate path; EGet url;
                                 EBody url; EWrite path (Body response); ERemove path]).
Proof.
  intros Hmiss Hmf Hmd Hne Hcf Hcn.
  rewrite (downloadFileRaw_cache_miss _ _ _ _ _ Hmiss).
  destruct (download_transfer_until_response path url hash w0
              Hmf Hmd Hne Hcf Hcn) as (w2 & perm & Hfs2 & Ht2 & Hf2 & Hn2 & ->).
  assert (Hget : ∀ response,
    fault w0 OpGet url = false → net w0 !! url = Some response →
    http_Get url w2 = (Ok response, add_events [EGet url] w2)).
  { intros response Hgf Hnet. apply http_Get_found; congruence. }
  split_and!.
  - intros response Hgf Hnet Hstatus.
    erewrite bind_ok; [|eapply wrap_ok, Hget; eassumption]. cbv beta.
    apply Z.eqb_neq in Hstatus. rewrite Hstatus. cbn [negb].
    eexists _, perm. split; [reflexivity|]. split; [exact Hfs2|].
    simpl. by rewrite Ht2, <- app_assoc.
  - intros Hfail.
    erewrite bind_fail; [|eapply wrap_fail, http_Get_failed; congruence].
    eexists _, perm. split; [reflexivity|]. split; [exact Hfs2|].
    simpl. by rewrite Ht2, <- app_assoc.
  - intros response Hgf Hnet Hstatus Hbroken Hwf Hrf.
    erewrite bind_ok; [|eapply wrap_ok, Hget; eassumption]. cbv beta.
    apply Z.eqb_eq in Hstatus. rewrite Hstatus. cbn [negb].
    erewrite bind_ok;
      [|eapply attempt_fail; erewrite io_Copy_body_file;
        [rewrite Hbroken; reflexivity|simpl; congruence|exact Hfs2]].
    cbv beta iota.
    erewrite bind_ok;
      [|eapply attempt_ok, os_Remove_file;
        [simpl; congruence|simpl; apply lookup_insert_eq]].
    eexists. split; [reflexivity|]. split; [simpl; apply lookup_delete_eq|].
    simpl. rewrite Ht2, <- !app_assoc. reflexivity.
Qed.

Lemma read_body_run url response w :
  read_body url response w
  = (if BodyBroken response then Fail (Sys OpBody url) else Ok (Body response),
     add_events [EBody url] w).
Proof. unfold read_body, bind, log. simpl. by destruct (BodyBroken response). Qed.

(** C7. After a 2xx response whose body was read in full,
    [downloadJsonRaw] digests the raw bytes and compares.  On a mismatch
    it returns the verification error and the target is what it was,
    whatever [json.Unmarshal] would have done with the bytes.  With no
    hash or an equal one the bytes are handed to [json.Unmarshal]; its
    error comes back joined under "Failed to parse JSON of" and the
    URL. *)
Theorem downloadJsonRaw_checks_before_parsing {T}
    (unmarshal : list byte → T → option error * T)
    url hash (structure : T) response w :
  fault w OpGet url = false → net w !! url = Some response →
  Z.quot (StatusCode response) 100 = 2 → BodyBroken response = false →
  (∀ h, hash = Some h → sha1_hex (Body response) ≠ h →
     downloadJsonRaw unmarshal url hash structure w
     = (Ok (Some (New ("failed to verify hash of " +:+ url +:+ ", got "
                         +:+ sha1_hex (Body response) +:+ " and expected " +:+ h)),
            structure),
        add_events [EGet url; EBody url] w))
  ∧ (hash = None ∨ hash = Some (sha1_hex (Body response)) →
     downloadJsonRaw unmarshal url hash structure w
     = (Ok (match unmarshal (Body response) structure with
            | (Some err, structure') =>
                (Some (JoinError [New ("Failed to parse JSON of " +:+ url); err]),
                 structure')
            | (None, structure') => (None, structure')
            end),
        add_events [EGet url; EBody url] w)).
Proof.
  intros Hgf Hnet Hstatus Hbody.
  apply Z.eqb_eq in Hstatus.
  split.
  - intros h -> Hne. apply String.eqb_neq in Hne.
    unfold downloadJsonRaw.
    erewrite bind_ok.
    2:{ eapply catch_fail.
        erewrite bind_ok; [|eapply wrap_ok, http_Get_found; eassumption].
        cbv beta. rewrite Hstatus. cbn [negb].
        erewrite bind_ok; [|eapply wrap_ok; rewrite read_body_run, Hbody; reflexivity].
        cbv beta. rewrite Hne. cbn [negb]. rewrite add_events_app. reflexivity. }
    reflexivity.
  - intros Hhash. unfold downloadJsonRaw.
    erewrite bind_ok.
    2:{ eapply catch_ok.
        erewrite bind_ok; [|eapply wrap_ok, http_Get_found; eassumption].
        cbv beta. rewrite Hstatus. cbn [negb].
        erewrite bind_ok; [|eapply wrap_ok; rewrite read_body_run, Hbody; reflexivity].
        cbv beta. rewrite add_events_app.
        erewrite bind_ok; [reflexivity|].
        destruct Hhash as [-> | ->]; [reflexivity|].
        by rewrite String.eqb_refl. }
    cbv beta iota.
    destruct (unmarshal (Body response) structure) as [[err|] structure']; reflexivity.
Qed.

End FetcherProperties.

Lemma downloadJsonRaw_checks_before_parsing_witness :
  @downloadJsonRaw sample_lib _ sample_unmarshal "http://m/v.json" (Some "abc") [x7b; x7d]
    json_world
  = (Ok (Some (New ("failed to verify hash of http://m/v.json, got " +:+ hash_a40
                     +:+ " and expected abc")), [x7b; x7d]),
     add_events [EGet "http://m/v.json"; EBody "http://m/v.json"] json_world)
  ∧ @downloadJsonRaw sample_lib _ sample_unmarshal "http://m/v.json" (Some hash_a40)
      [x7b; x7d] json_world
    = (Ok (None, [x61]),
       add_events [EGet "http://m/v.json"; EBody "http://m/v.json"] json_world).
Proof.
  pose proof (λ hash, @downloadJsonRaw_checks_before_parsing sample_lib _
                sample_unmarshal "http://m/v.json" hash [x7b; x7d]
                {| StatusCode := 200; Status := "200 OK"; Body := [x61];
                   BodyBroken := false |} json_world
                eq_refl eq_refl eq_refl eq_refl) as Hspec.
  split.
  - refine (proj1 (Hspec (Some "abc")) "abc" eq_refl _).
    intros Heq. vm_compute in Heq. discriminate.
  - exact (proj2 (Hspec (Some hash_a40)) (or_intror eq_refl)).
Defined.

Lemma downloadFileRaw_failed_response_keeps_empty_file_witness :
  ∃ w' perm,
    @downloadFileRaw sample_lib "cache/a.bin" "http://m/a.bin" None stale_world
    = (Fail (New "failed to download http://m/a.bin: 404 Not Found"), w')
    ∧ fs w' !! "cache/a.bin" = Some (NFile perm [])
    ∧ trace w' = [EMkdirAll "dir-of:cache/a.bin"; ECreate "cache/a.bin";
                  EGet "http://m/a.bin"].
Proof.
  refine (proj1 (@downloadFileRaw_failed_response_keeps_empty_file sample_lib
            "cache/a.bin" "http://m/a.bin" None stale_world stale_world
            (or_introl (conj eq_refl eq_refl)) eq_refl (or_introl eq_refl) _
            eq_refl (or_intror (ex_intro _ 420 (ex_intro _ [x61] eq_refl))))
            (answer 404 "404 Not Found" [x62]) eq_refl eq_refl _).
  - intros Heq. vm_compute in Heq. discriminate.
  - intros Heq. vm_compute in Heq. discriminate.
Defined.

(** ** Download orchestrator *)

(** ** Error collector *)











(** ** Scheduling *)




(** ** The launch loops *)

Lemma asset_step_invariant (st : gmap string bool * list AssetEntry) kv :
  (∀ h, st.1 !! h = if decide (h ∈ AssetEntry_Hash <$> st.2) then Some true else None) →
  NoDup (AssetEntry_Hash <$> st.2) →
  size st.1 = length st.2 →
  let st' := asset_step st kv in
  (∀ h, st'.1 !! h = if decide (h ∈ AssetEntry_Hash <$> st'.2) then Some true else None)
  ∧ NoDup (AssetEntry_Hash <$> st'.2)
  ∧ size st'.1 = length st'.2
  ∧ (∀ h, h ∈ AssetEntry_Hash <$> st'.2
          ↔ h ∈ AssetEntry_Hash <$> st.2 ∨ h = AssetEntry_Hash kv.2).
Proof.
  intros Hdom Hnd Hsize. unfold asset_step. simpl.
  pose proof (Hdom (AssetEntry_Hash kv.2)) as Hseen.
  destruct (decide (AssetEntry_Hash kv.2 ∈ AssetEntry_Hash <$> st.2)) as [Hin|Hfresh];
    rewrite Hseen; simpl.
  - split_and!; try done. intros h. split; [by left|]. by intros [?| ->].
  - rewrite fmap_app. simpl. split_and!.
    + intros h. destruct (decide (AssetEntry_Hash kv.2 = h)) as [<-|Hne].
      * rewrite lookup_insert_eq. rewrite decide_True; [done|].
        apply elem_of_app. right. by left.
      * rewrite lookup_insert_ne by done. rewrite Hdom.
        destruct (decide (h ∈ AssetEntry_Hash <$> st.2)) as [Hh|Hh].
        -- rewrite decide_True; [done|]. apply elem_of_app. by left.
        -- rewrite decide_False; [done|].
           rewrite elem_of_app, list_elem_of_singleton. intros [?|?]; congruence.
    + apply NoDup_app. split; [done|]. split; [|apply NoDup_singleton].
      intros h Hh Hh'. apply list_elem_of_singleton in Hh'. congruence.
    + rewrite map_size_insert_None by done. rewrite length_app. simpl. lia.
    + intros h. rewrite elem_of_app, list_elem_of_singleton. done.
Qed.

Lemma asset_loop_invariant objects (st : gmap string bool * list AssetEntry) :
  (∀ h, st.1 !! h = if decide (h ∈ AssetEntry_Hash <$> st.2) then Some true else None) →
  NoDup (AssetEntry_Hash <$> st.2) →
  size st.1 = length st.2 →
  let st' := fold_left asset_step objects st in
  NoDup (AssetEntry_Hash <$> st'.2)
  ∧ size st'.1 = length st'.2
  ∧ (∀ h, h ∈ AssetEntry_Hash <$> st'.2
          ↔ h ∈ AssetEntry_Hash <$> st.2 ∨ h ∈ (AssetEntry_Hash ∘ snd) <$> objects).
Proof.
  revert st. induction objects as [|kv objects IH]; intros st Hdom Hnd Hsize; simpl.
  - split_and!; try done. intros h. rewrite elem_of_nil. tauto.
  - destruct (asset_step_invariant st kv Hdom Hnd Hsize) as (Hdom' & Hnd' & Hsize' & Hmem).
    destruct (IH _ Hdom' Hnd' Hsize') as (Hnd'' & Hsize'' & Hmem'').
    split_and!; try done.
    intros h. rewrite Hmem'', Hmem, elem_of_cons. simpl. tauto.
Qed.

Lemma asset_loop_spec objects :
  NoDup (AssetEntry_Hash <$> (asset_loop objects).2)
  ∧ (∀ h, h ∈ AssetEntry_Hash <$> (asset_loop objects).2
          ↔ h ∈ (AssetEntry_Hash ∘ snd) <$> objects)
  ∧ length (asset_loop objects).2
    = size (list_to_set ((AssetEntry_Hash ∘ snd) <$> objects) : gset string)
  ∧ size (asset_loop objects).1 = length (asset_loop objects).2.
Proof.
  destruct (asset_loop_invariant objects (∅, [])) as (Hnd & Hsize & Hmem);
    [intros h; cbn [fst snd fmap list_fmap]; rewrite lookup_empty;
       case_decide as Hin; [by apply elem_of_nil in Hin|done]
    |constructor|done|].
  assert (Hmem' : ∀ h, h ∈ AssetEntry_Hash <$> (asset_loop objects).2
                       ↔ h ∈ (AssetEntry_Hash ∘ snd) <$> objects).
  { intros h. unfold asset_loop. rewrite Hmem. simpl. rewrite elem_of_nil. tauto. }
  split_and!; try done.
  rewrite <- (length_fmap AssetEntry_Hash).
  rewrite <- (size_list_to_set (C := gset string)) by exact Hnd.
  f_equal. apply set_eq. intros h. rewrite !elem_of_list_to_set. apply Hmem'.
Qed.

Section OrchestratorProperties.
Context `{GoLib}.

Lemma library_loop_invariant pf base features libraries (st : list string * list (M unit)) :
  fold_left (library_step pf base features) libraries st
  = (st.1 ++ (library_path base <$> List.filter (library_allowed pf features) libraries),
     st.2 ++ ((λ library, downloadFile (library_path base library)
                            (Library_Artifact library))
                <$> List.filter (library_allowed pf features) libraries)).
Proof.
  revert st. induction libraries as [|library libraries IH]; intros [classpath units]; simpl.
  - by rewrite !app_nil_r.
  - rewrite IH. unfold library_step, library_allowed. simpl.
    destruct (testRules pf (Library_Rules library) features); simpl; [|done].
    by rewrite <- !app_assoc.
Qed.





(** C3, as the code has it. [downloadAssets] launches one fetch per
    distinct hash: the launched entries have pairwise distinct keys,
    cover the keys of all objects, and are as many as there are
    distinct keys.  [downloadLibraries] keeps no record of what it
    launched: it launches one fetch per library that the rules allow,
    in input order, repeats included.  No loop keys on the destination
    path. *)
Theorem launch_loops_dedup_assets_only :
  (∀ base objects,
     NoDup (asset_key base <$> (asset_loop objects).2)
     ∧ (∀ key, key ∈ asset_key base <$> (asset_loop objects).2
               ↔ key ∈ (asset_key base ∘ snd) <$> objects)
     ∧ length (asset_loop objects).2
       = size (list_to_set ((asset_key base ∘ snd) <$> objects) : gset string))
  ∧ (∀ pf base features libraries,
       library_loop pf base features libraries
       = (library_path base <$> List.filter (library_allowed pf features) libraries,
          (λ library, downloadFile (library_path base library) (Library_Artifact library))
            <$> List.filter (library_allowed pf features) libraries)).
Proof.
  split.
  - intros base objects.
    destruct (asset_loop_spec objects) as (Hnd & Hmem & Hlen & _).
    done.
  - intros pf base features libraries. unfold library_loop.
    by rewrite library_loop_invariant.
Qed.

End OrchestratorProperties.


Lemma launch_loops_dedup_assets_only_witness :
  length (asset_loop three_objects).2 = 2%nat.
Proof.
  rewrite (proj2 (proj2 (proj1 (@launch_loops_dedup_assets_only sample_lib)
                           "/base" three_objects))).
  vm_compute. reflexivity.
Defined.

(** C3 fails as stated. Three libraries, two of which are the same
    artifact (same hash, same path), have two distinct dedup keys, and
    [downloadLibraries] launches three fetches. *)
Lemma libraries_are_not_deduplicated :
  let libraries := [library_a; library_b; library_a] in
  size (list_to_set (library_key "/base" <$> libraries) : gset string) = 2%nat
  ∧ length (@library_loop sample_lib linux_amd64 "/base" ∅ libraries).2 = 3%nat
  ∧ (@library_loop sample_lib linux_amd64 "/base" ∅ libraries).1
    = ["/base/library/org/a/a.jar"; "/base/library/org/b/b.jar";
       "/base/library/org/a/a.jar"].
Proof. vm_compute. repeat split. Qed.

(** Five objects of which two are missing on the server: all five
    units run, and the error returned holds the two download errors. *)
Example downloadAssets_batch_two_of_five_fail :
  let run := @downloadAssets_batch sample_lib [4; 0; 3; 1; 2]%nat "/base"
                five_objects five_world in
  (∃ err, run.1 = Fail err
          ∧ leaves err
            = [New ("failed to download " +:+ resource_url hash_e40 +:+ ": 404 Not Found");
               New ("failed to download " +:+ resource_url hash_d40 +:+ ": 404 Not Found")])
  ∧ length (List.filter (λ e, match e with ECreate _ => true | _ => false end)
              (trace run.2)) = 5%nat.
Proof. vm_compute. split; [eexists; split; reflexivity|reflexivity]. Qed.

(** The example of the spec: two objects share a hash, two fetches. *)
Example asset_loop_three_objects :
  AssetEntry_Hash <$> (asset_loop three_objects).2 = [hash_a40; hash_b40].
Proof. vm_compute. reflexivity. Qed.

(** ** Archive extractor *)





Section ExtractorProperties.
Context `{GoLib}.







End ExtractorProperties.


(** * Further properties *)

(** ** Verifier and fetcher, further cases *)

Section FetcherCases.
Context `{GoLib}.

(** X1. [validateHash] takes a file it cannot stat for an absent one:
    when the path does not exist, or when the stat is refused although
    a file is there, it returns false without an error, whatever the
    hash (one of unsupported length included), and the stat is the only
    call it makes. *)
Theorem validateHash_unknown_file_is_invalid path hash w :
  fs w !! path = None ∨ fault w OpStat path = true →
  validateHash path hash w = (Ok false, add_events [EStat path] w).
Proof.
  intros Hbad. unfold validateHash, fileExists.
  erewrite bind_ok.
  2:{ erewrite bind_ok; [reflexivity|].
      eapply attempt_fail. destruct Hbad as [Hn|Hf].
      - by apply os_Stat_missing.
      - unfold os_Stat. by apply syscall_refused. }
  reflexivity.
Qed.

(** X2. For a file that exists and can be opened, and a hash whose
    length is neither 40 nor 64, [validateHash] fails with the
    unknown-hash-size error under "could not validate hash of <path>".
    The file is statted and opened and nothing else: it is neither read
    nor deleted, and the file system is as before. *)
Theorem validateHash_malformed_hash_keeps_file path hash perm data w :
  fs w !! path = Some (NFile perm data) →
  fault w OpStat path = false → fault w OpOpen path = false →
  String.length hash ≠ 40%nat → String.length hash ≠ 64%nat →
  ∃ w',
    validateHash path hash w
    = (Fail (JoinError [New ("could not validate hash of " +:+ path);
                        New ("Unknown hash size " +:+ decimal (String.length hash))]), w')
    ∧ fs w' = fs w
    ∧ trace w' = trace w ++ [EStat path; EOpen path].
Proof.
  intros Hn Hs Ho H40 H64. exists (add_events [EStat path; EOpen path] w).
  split; [|split; reflexivity].
  unfold validateHash.
  erewrite bind_ok; [|eapply fileExists_found; eassumption]. cbv beta iota.
  erewrite bind_fail; [reflexivity|].
  eapply wrap_fail. unfold hashFile, openFile.
  erewrite bind_ok; [|eapply wrap_ok, os_Open_file; eassumption]. cbv beta.
  apply Nat.eqb_neq in H40, H64. cbv zeta. rewrite H40, H64.
  erewrite bind_fail by reflexivity. by rewrite add_events_app.
Qed.

(** What [download_transfer] does when the response is 2xx and the
    body arrives in full: the bytes are in the file when the hash is
    looked at. *)
Lemma download_transfer_body path url hash response w :
  (∀ o p, fault w o p = false) →
  fs w !! filepath_Dir path = None ∨ fs w !! filepath_Dir path = Some NDir →
  filepath_Dir path ≠ path →
  fs w !! path = None ∨ (∃ perm data, fs w !! path = Some (NFile perm data)) →
  net w !! url = Some response →
  Z.quot (StatusCode response) 100 = 2 → BodyBroken response = false →
  ∃ w3 perm,
    fs w3 !! path = Some (NFile perm (Body response))
    ∧ trace w3 = trace w ++ [EMkdirAll (filepath_Dir path); ECreate path; EGet url;
                             EBody url; EWrite path (Body response)]
    ∧ fault w3 = fault w ∧ net w3 = net w
    ∧ (∀ q, q ≠ path → q ≠ filepath_Dir path → fs w3 !! q = fs w !! q)
    ∧ download_transfer path url hash w
      = (match hash with
         | Some h =>
             let* valid := wrap ("could not validate hash of " +:+ path)
                                (validateHash path h) in
             if negb valid
             then throw (New ("download " +:+ path +:+ " failed to download"))
             else ret tt
         | None => ret tt
         end) w3.
Proof.
  intros Hcalm Hmd Hne Hcn Hnet Hstatus Hbody.
  destruct (os_MkdirAll_ok _ _ (Hcalm _ _) Hmd) as (w1 & Hmk & Ht1 & Hf1 & Hn1 & _ & Hfs1).
  destruct (os_OpenFile_trunc_ok path 438 w1) as (w2 & Hcr & Ht2 & Hf2 & Hn2 & Hfs2 & Hfs2').
  { rewrite Hf1. apply Hcalm. }
  { rewrite Hfs1 by done. exact Hcn. }
  eexists _, _. split_and!; last first.
  - unfold download_transfer, createParents, createFile, os_Create.
    erewrite bind_ok; [|eapply wrap_ok; exact Hmk]. cbv beta.
    erewrite bind_ok; [|eapply wrap_ok; exact Hcr]. cbv beta.
    erewrite bind_ok; [|eapply wrap_ok, http_Get_found;
                        [rewrite Hf2, Hf1; apply Hcalm|by rewrite Hn2, Hn1]].
    cbv beta. apply Z.eqb_eq in Hstatus. rewrite Hstatus. cbn [negb].
    erewrite bind_ok;
      [|eapply attempt_ok; erewrite io_Copy_body_file;
        [rewrite Hbody; reflexivity
        |simpl; rewrite Hf2, Hf1; apply Hcalm
        |exact Hfs2]].
    cbv beta iota. reflexivity.
  - intros q Hq Hq'. simpl. rewrite lookup_insert_ne by done.
    rewrite Hfs2' by done. by apply Hfs1.
  - simpl. congruence.
  - simpl. congruence.
  - simpl. rewrite Ht2, Ht1, <- !app_assoc. reflexivity.
  - simpl. apply lookup_insert_eq.
Qed.

Lemma downloadFileRaw_stores path url hash response w w0 :
  (hash = None ∧ w0 = w)
  ∨ (∃ h, hash = Some h ∧ validateHash path h w = (Ok false, w0)) →
  (∀ o p, fault w0 o p = false) →
  fs w0 !! filepath_Dir path = None ∨ fs w0 !! filepath_Dir path = Some NDir →
  filepath_Dir path ≠ path →
  fs w0 !! path = None ∨ (∃ perm data, fs w0 !! path = Some (NFile perm data)) →
  net w0 !! url = Some response →
  Z.quot (StatusCode response) 100 = 2 → BodyBroken response = false →
  (∀ h, hash = Some h →
     ∃ digest, selected_digest h = Some digest ∧ digest (Body response) = h) →
  ∃ w' perm,
    downloadFileRaw path url hash w = (Ok tt, w')
    ∧ fs w' !! path = Some (NFile perm (Body response))
    ∧ fault w' = fault w0
    ∧ List.filter is_network (trace w')
      = List.filter is_network (trace w0) ++ [EGet url; EBody url].
Proof.
  intros Hmiss Hcalm Hmd Hne Hcn Hnet Hstatus Hbody Hhash.
  rewrite (downloadFileRaw_cache_miss _ _ _ _ _ Hmiss).
  destruct (download_transfer_body path url hash response w0
              Hcalm Hmd Hne Hcn Hnet Hstatus Hbody)
    as (w3 & perm & Hfs3 & Ht3 & Hf3 & Hn3 & _ & ->).
  destruct hash as [h|].
  - destruct (Hhash h eq_refl) as (digest & Hsel & Hdig).
    exists (add_events [EStat path; EOpen path; ERead path] w3), perm.
    split_and!.
    + erewrite bind_ok;
        [|eapply wrap_ok, validateHash_match; try eassumption;
          rewrite Hf3; apply Hcalm].
      reflexivity.
    + exact Hfs3.
    + exact Hf3.
    + simpl. rewrite Ht3, !List.filter_app. simpl. by rewrite app_nil_r.
  - exists w3, perm. split; [reflexivity|]. split; [exact Hfs3|].
    split; [exact Hf3|].
    rewrite Ht3, List.filter_app. reflexivity.
Qed.

(** X3. On a cache miss, when no system call is refused, the server
    answers with a 2xx status, the body arrives in full and, if a hash
    is given, the digest of the body equals it, [downloadFileRaw]
    returns nil, the destination holds exactly the body, and the
    network has seen one GET and one read of the body, no more. *)
Theorem downloadFileRaw_stores_verified_body path url hash response w w0 :
  (hash = None ∧ w0 = w)
  ∨ (∃ h, hash = Some h ∧ validateHash path h w = (Ok false, w0)) →
  (∀ o p, fault w0 o p = false) →
  fs w0 !! filepath_Dir path = None ∨ fs w0 !! filepath_Dir path = Some NDir →
  filepath_Dir path ≠ path →
  fs w0 !! path = None ∨ (∃ perm data, fs w0 !! path = Some (NFile perm data)) →
  net w0 !! url = Some response →
  Z.quot (StatusCode response) 100 = 2 → BodyBroken response = false →
  (∀ h, hash = Some h →
     ∃ digest, selected_digest h = Some digest ∧ digest (Body response) = h) →
  ∃ w' perm,
    downloadFileRaw path url hash w = (Ok tt, w')
    ∧ fs w' !! path = Some (NFile perm (Body response))
    ∧ List.filter is_network (trace w')
      = List.filter is_network (trace w0) ++ [EGet url; EBody url].
Proof.
  intros Hmiss Hcalm Hmd Hne Hcn Hnet Hstatus Hbody Hhash.
  destruct (downloadFileRaw_stores path url hash response w w0)
    as (w' & perm & Hrun & Hfs & _ & Htr); try done.
  by exists w', perm.
Qed.

(** X4. When the body arrives in full but its digest differs from the
    expected hash, [downloadFileRaw] fails with "download <path> failed
    to download" and the destination does not exist afterwards: the
    verification has deleted the file that was just written. *)
Theorem downloadFileRaw_removes_unverified_body path url h response digest w w0 :
  validateHash path h w = (Ok false, w0) →
  (∀ o p, fault w0 o p = false) →
  fs w0 !! filepath_Dir path = None ∨ fs w0 !! filepath_Dir path = Some NDir →
  filepath_Dir path ≠ path →
  fs w0 !! path = None ∨ (∃ perm data, fs w0 !! path = Some (NFile perm data)) →
  net w0 !! url = Some response →
  Z.quot (StatusCode response) 100 = 2 → BodyBroken response = false →
  selected_digest h = Some digest → digest (Body response) ≠ h →
  ∃ w',
    downloadFileRaw path url (Some h) w
    = (Fail (New ("download " +:+ path +:+ " failed to download")), w')
    ∧ fs w' !! path = None.
Proof.
  intros Hv Hcalm Hmd Hne Hcn Hnet Hstatus Hbody Hsel Hdig.
  rewrite (downloadFileRaw_cache_miss path url (Some h) w w0)
    by (right; by exists h).
  destruct (download_transfer_body path url (Some h) response w0
              Hcalm Hmd Hne Hcn Hnet Hstatus Hbody)
    as (w3 & perm & Hfs3 & Ht3 & Hf3 & Hn3 & _ & ->).
  eexists. split.
  - erewrite bind_ok.
    2:{ eapply wrap_ok. erewrite validateHash_mismatch; try eassumption;
          try (rewrite Hf3; apply Hcalm).
        rewrite Hf3, Hcalm. reflexivity. }
    reflexivity.
  - simpl. apply lookup_delete_eq.
Qed.

(** X5. Two downloads of the same destination in a row, the first on
    an absent file: both return nil, the file holds the body, and the
    network has seen one GET and one read of the body in all; the
    second call is answered by the file of the first. *)
Theorem downloadFileRaw_twice_one_request path url h response digest w :
  (∀ o p, fault w o p = false) →
  fs w !! path = None →
  fs w !! filepath_Dir path = None ∨ fs w !! filepath_Dir path = Some NDir →
  filepath_Dir path ≠ path →
  net w !! url = Some response →
  Z.quot (StatusCode response) 100 = 2 → BodyBroken response = false →
  selected_digest h = Some digest → digest (Body response) = h →
  ∃ w' perm,
    (downloadFileRaw path url (Some h) >>> downloadFileRaw path url (Some h)) w
    = (Ok tt, w')
    ∧ fs w' !! path = Some (NFile perm (Body response))
    ∧ List.filter is_network (trace w')
      = List.filter is_network (trace w) ++ [EGet url; EBody url].
Proof.
  intros Hcalm Hn Hmd Hne Hnet Hstatus Hbody Hsel Hdig.
  pose proof (validateHash_missing path h w Hn) as Hv.
  destruct (downloadFileRaw_stores path url (Some h) response w
              (add_events [EStat path] w))
    as (w1 & perm & Hrun & Hfs1 & Hf1 & Htr); try done.
  { right. by exists h. }
  { by left. }
  { intros h' [= <-]. by exists digest. }
  exists (add_events [EStat path; EOpen path; ERead path] w1), perm.
  split; [|split].
  - erewrite bind_ok by exact Hrun. cbv beta.
    unfold downloadFileRaw.
    erewrite bind_ok;
      [|eapply wrap_ok, validateHash_match; try eassumption; rewrite Hf1; apply Hcalm].
    reflexivity.
  - exact Hfs1.
  - simpl. rewrite List.filter_app, Htr. simpl.
    rewrite List.filter_app. simpl. by rewrite !app_nil_r.
Qed.






End FetcherCases.

Lemma validateHash_unknown_file_is_invalid_witness :
  @validateHash sample_lib "cache/a.bin" "abc" empty_world
  = (Ok false, add_events [EStat "cache/a.bin"] empty_world).
Proof.
  exact (@validateHash_unknown_file_is_invalid sample_lib "cache/a.bin" "abc"
           empty_world (or_introl eq_refl)).
Defined.

Lemma validateHash_malformed_hash_keeps_file_witness :
  ∃ w', @validateHash sample_lib "cache/a.bin" "abc" cached_world
        = (Fail (JoinError [New "could not validate hash of cache/a.bin";
                            New "Unknown hash size 3"]), w')
        ∧ fs w' = fs cached_world.
Proof.
  destruct (@validateHash_malformed_hash_keeps_file sample_lib "cache/a.bin" "abc"
              420 [x61] cached_world eq_refl eq_refl eq_refl)
    as (w' & Hrun & Hfs & _).
  - intros Heq. vm_compute in Heq. discriminate.
  - intros Heq. vm_compute in Heq. discriminate.
  - exists w'. split; [exact Hrun|exact Hfs].
Defined.

Lemma downloadFileRaw_stores_verified_body_witness :
  ∃ w' perm,
    @downloadFileRaw sample_lib "cache/a.bin" "http://m/a.bin" (Some hash_a40) fetch_world
    = (Ok tt, w')
    ∧ fs w' !! "cache/a.bin" = Some (NFile perm [x61])
    ∧ List.filter is_network (trace w') = [EGet "http://m/a.bin"; EBody "http://m/a.bin"].
Proof.
  refine (@downloadFileRaw_stores_verified_body sample_lib "cache/a.bin" "http://m/a.bin"
            (Some hash_a40) (answer 200 "200 OK" [x61]) fetch_world
            (add_events [EStat "cache/a.bin"] fetch_world)
            (or_intror (ex_intro _ hash_a40 (conj eq_refl _))) (λ _ _, eq_refl)
            (or_introl eq_refl) _ (or_introl eq_refl) eq_refl eq_refl eq_refl _).
  - vm_compute. reflexivity.
  - intros Heq. vm_compute in Heq. discriminate.
  - intros h Heq. injection Heq as <-. exists (sample_digest 40). split; reflexivity.
Defined.

Lemma downloadFileRaw_removes_unverified_body_witness :
  ∃ w',
    @downloadFileRaw sample_lib "cache/a.bin" "http://m/a.bin" (Some hash_b40) fetch_world
    = (Fail (New "download cache/a.bin failed to download"), w')
    ∧ fs w' !! "cache/a.bin" = None.
Proof.
  refine (@downloadFileRaw_removes_unverified_body sample_lib "cache/a.bin"
            "http://m/a.bin" hash_b40 (answer 200 "200 OK" [x61]) (sample_digest 40)
            fetch_world (add_events [EStat "cache/a.bin"] fetch_world)
            _ (λ _ _, eq_refl) (or_introl eq_refl) _ (or_introl eq_refl)
            eq_refl eq_refl eq_refl eq_refl _).
  - vm_compute. reflexivity.
  - intros Heq. vm_compute in Heq. discriminate.
  - intros Heq. vm_compute in Heq. discriminate.
Defined.

Lemma downloadFileRaw_twice_one_request_witness :
  ∃ w' perm,
    (@downloadFileRaw sample_lib "cache/a.bin" "http://m/a.bin" (Some hash_a40) >>>
     @downloadFileRaw sample_lib "cache/a.bin" "http://m/a.bin" (Some hash_a40)) fetch_world
    = (Ok tt, w')
    ∧ fs w' !! "cache/a.bin" = Some (NFile perm [x61])
    ∧ List.filter is_network (trace w') = [EGet "http://m/a.bin"; EBody "http://m/a.bin"].
Proof.
  refine (@downloadFileRaw_twice_one_request sample_lib "cache/a.bin" "http://m/a.bin"
            hash_a40 (answer 200 "200 OK" [x61]) (sample_digest 40) fetch_world
            (λ _ _, eq_refl) eq_refl (or_introl eq_refl) _ eq_refl eq_refl eq_refl
            eq_refl eq_refl).
  intros Heq. vm_compute in Heq. discriminate.
Defined.



(** ** JSON files and the version manifest *)

Lemma slice_bytes_all data w :
  slice_bytes data 0 (length data) w = (Ok data, w).
Proof.
  unfold slice_bytes. rewrite Nat.leb_refl. simpl.
  by rewrite Nat.sub_0_r, firstn_all.
Qed.

Lemma write_loop_once fuel path file perm data w :
  fault w OpWrite file = false → fs w !! file = Some (NFile perm []) →
  ∃ w', write_loop (S fuel) path file data 0 (length data) w = (Ok (Some tt), w')
        ∧ fs w' = <[file := NFile perm data]> (fs w)
        ∧ fault w' = fault w.
Proof.
  intros Hf Hn.
  destruct data as [|b data].
  { exists w. split; [done|]. split; [|done]. by rewrite insert_id. }
  cbn [write_loop length]. change (0 <? S (length data))%nat with true. cbv iota.
  erewrite bind_ok; [|apply (slice_bytes_all (b :: data))]. cbv beta.
  erewrite bind_ok.
  2:{ eapply wrap_ok. unfold file_Write.
      erewrite bind_ok; [|eapply write_file; eassumption]. reflexivity. }
  cbv beta. cbn [length Nat.add]. rewrite Nat.sub_diag.
  destruct fuel; (eexists; split; [reflexivity|]); split; try done; simpl;
    by rewrite insert_insert_eq.
Qed.

(** X8. [writeJson] then [readJson] on the same path give the
    structure back.  When no system call is refused, the path is free
    or a regular file, and the unmarshaller reads the marshalled bytes
    back as the structure, [writeJson] returns nil and leaves exactly
    the marshalled bytes in the file, whatever it held before; then
    [readJson] returns nil with the structure in the target and leaves
    the file system as it is. *)
Theorem writeJson_readJson_round_trip {T}
    (marshal : T → error + list byte)
    (unmarshal : list byte → T → option error * T)
    fuel path (structure target : T) data w :
  (∀ o p, fault w o p = false) →
  fs w !! path = None ∨ (∃ perm old, fs w !! path = Some (NFile perm old)) →
  marshal structure = inr data →
  unmarshal data target = (None, structure) →
  ∃ w1 w2 perm,
    writeJson marshal (S fuel) path structure w = (Ok (Some tt), w1)
    ∧ fs w1 !! path = Some (NFile perm data)
    ∧ readJson unmarshal path target w1 = (Ok (None, structure), w2)
    ∧ fs w2 = fs w1.
Proof.
  intros Hcalm Hn Hmarshal Hunmarshal.
  destruct (os_OpenFile_trunc_ok path 438 w (Hcalm _ _) Hn)
    as (w0 & Hcreate & Ht0 & Hf0 & Hn0 & Hfs0 & _).
  edestruct (write_loop_once fuel path path) as (w1 & Hloop & Hfs1 & Hf1);
    [rewrite Hf0; apply Hcalm|exact Hfs0|].
  assert (Hfile : fs w1 !! path
                  = Some (NFile (match fs w !! path with
                                 | Some (NFile perm _) => perm
                                 | _ => syscallMode 438
                                 end) data)).
  { rewrite Hfs1. apply lookup_insert_eq. }
  eexists w1, _, _. split_and!.
  - unfold writeJson. rewrite Hmarshal. unfold createFile, os_Create.
    erewrite bind_ok; [|eapply wrap_ok; exact Hcreate]. exact Hloop.
  - exact Hfile.
  - unfold readJson, openFile.
    erewrite bind_ok.
    2:{ eapply catch_ok.
        erewrite bind_ok;
          [|eapply wrap_ok, os_Open_file;
            [rewrite Hf1, Hf0; apply Hcalm|exact Hfile]].
        cbv beta. eapply wrap_ok, read_all_file; [|exact Hfile].
        simpl. rewrite Hf1, Hf0. apply Hcalm. }
    cbv beta iota. rewrite Hunmarshal. reflexivity.
  - reflexivity.
Qed.

Lemma writeJson_readJson_round_trip_witness :
  ∃ w1 w2 perm,
    writeJson sample_marshal 1 "v.json" [x7b; x7d] empty_world = (Ok (Some tt), w1)
    ∧ fs w1 !! "v.json" = Some (NFile perm [x7b; x7d])
    ∧ readJson sample_unmarshal "v.json" [] w1 = (Ok (None, [x7b; x7d]), w2)
    ∧ fs w2 = fs w1.
Proof.
  exact (writeJson_readJson_round_trip sample_marshal sample_unmarshal 0 "v.json"
           [x7b; x7d] [] [x7b; x7d] empty_world
           (λ _ _, eq_refl) (or_introl eq_refl) eq_refl eq_refl).
Defined.

Section ManifestProperties.
Context `{GoLib}.



End ManifestProperties.


(** ** Argument templating *)

Lemma append_nil (b : string) : "" +:+ b = b.
Proof. reflexivity. Qed.

Lemma append_cons x (a b : string) : String x a +:+ b = String x (a +:+ b).
Proof. reflexivity. Qed.

Lemma append_nil_r (a : string) : a +:+ "" = a.
Proof. induction a as [|x a IH]; [done|]. by rewrite append_cons, IH. Qed.

Lemma append_assoc (a b c : string) : (a +:+ b) +:+ c = a +:+ (b +:+ c).
Proof. induction a as [|x a IH]; [done|]. by rewrite !append_cons, IH. Qed.

Lemma length_append (a b : string) :
  String.length (a +:+ b) = (String.length a + String.length b)%nat.
Proof. induction a as [|x a IH]; [done|]. rewrite append_cons. simpl. by rewrite IH. Qed.

Lemma lacks_append c a b : lacks c (a +:+ b) ↔ lacks c a ∧ lacks c b.
Proof.
  induction a as [|x a IH]; [rewrite append_nil; simpl; tauto|].
  rewrite append_cons. simpl. rewrite IH. tauto.
Qed.

Lemma prefix_append (a b : string) : String.prefix a (a +:+ b) = true.
Proof.
  induction a as [|y a IH]; [by destruct b|].
  rewrite append_cons. simpl. destruct (ascii_dec y y); [apply IH|done].
Qed.

Lemma prefix_head_differs x c sep s :
  x ≠ c → String.prefix (String c sep) (String x s) = false.
Proof.
  intros Hne. simpl.
  destruct (ascii_dec c x) as [->|]; [done|reflexivity].
Qed.

Lemma strings_Index_lacks c sep s :
  lacks c s → strings_Index s (String c sep) = None.
Proof.
  induction s as [|x s IH]; simpl; [done|].
  intros [Hne Hs].
  destruct (ascii_dec c x) as [->|]; [done|].
  by rewrite (IH Hs).
Qed.

Lemma strings_Index_after c sep before rest :
  lacks c before →
  strings_Index (before +:+ String c sep +:+ rest) (String c sep)
  = Some (String.length before).
Proof.
  induction before as [|x before IH]; intros Hl.
  - rewrite append_nil.
    destruct (String c sep +:+ rest) as [|y t] eqn:Heq; [done|].
    cbn [strings_Index]. rewrite <- Heq. by rewrite prefix_append.
  - destruct Hl as [Hne Hl]. rewrite append_cons.
    cbn [strings_Index]. rewrite prefix_head_differs by done.
    by rewrite (IH Hl).
Qed.

Lemma substring_skip before s n :
  substring (String.length before) n (before +:+ s) = substring 0 n s.
Proof. induction before as [|x before IH]; [done|]. rewrite append_cons. exact IH. Qed.

Lemma substring_take s rest :
  substring 0 (String.length s) (s +:+ rest) = s.
Proof.
  induction s as [|x s IH]; [by destruct rest|].
  rewrite append_cons. simpl. by rewrite IH.
Qed.

Lemma slice_middle before s rest :
  slice (before +:+ s +:+ rest) (String.length before)
        (String.length before + String.length s)
  = Some s.
Proof.
  unfold slice. rewrite !length_append.
  replace (_ <=? _)%nat with true by (symmetry; apply Nat.leb_le; lia).
  replace (_ <=? _)%nat with true by (symmetry; apply Nat.leb_le; lia).
  cbn [andb]. f_equal.
  replace (String.length before + String.length s - String.length before)%nat
    with (String.length s) by lia.
  by rewrite substring_skip, substring_take.
Qed.

Lemma slice_front s rest : slice (s +:+ rest) 0 (String.length s) = Some s.
Proof. exact (slice_middle "" s rest). Qed.

Lemma slice_back before s :
  slice (before +:+ s) (String.length before) (String.length (before +:+ s)) = Some s.
Proof.
  pose proof (slice_middle before s "") as Hs.
  rewrite append_nil_r in Hs. by rewrite length_append.
Qed.

(** One iteration on a template whose first placeholder is [key]. *)
Lemma jankyFormat_step fuel before key after environment :
  lacks "$" before → lacks "}" before → lacks "}" key →
  jankyFormat (S fuel) (before +:+ "${" +:+ key +:+ "}" +:+ after) environment
  = match environment !! key with
    | Some value => jankyFormat fuel (before +:+ value +:+ after) environment
    | None => Returned (before +:+ "${" +:+ key +:+ "}" +:+ after)
    end.
Proof.
  intros Hd Hb Hk. cbn [jankyFormat].
  rewrite (strings_Index_after "$" "{" before (key +:+ "}" +:+ after) Hd).
  assert (Hfinish :
    strings_Index (before +:+ "${" +:+ key +:+ "}" +:+ after) "}"
    = Some (String.length before + 2 + String.length key)%nat).
  { replace (before +:+ "${" +:+ key +:+ "}" +:+ after)
      with (((before +:+ "${") +:+ key) +:+ "}" +:+ after)
      by (by rewrite !append_assoc).
    rewrite (strings_Index_after "}" "" ((before +:+ "${") +:+ key) after).
    - by rewrite !length_append.
    - rewrite !lacks_append. repeat split; done. }
  rewrite Hfinish.
  assert (Hkey : slice (before +:+ "${" +:+ key +:+ "}" +:+ after)
                   (String.length before + 2)
                   (String.length before + 2 + String.length key) = Some key).
  { pose proof (slice_middle (before +:+ "${") key ("}" +:+ after)) as Hs.
    rewrite length_append in Hs.
    by rewrite append_assoc in Hs. }
  rewrite Hkey.
  destruct (environment !! key) as [value|]; [|done].
  rewrite slice_front.
  assert (Hafter : slice (before +:+ "${" +:+ key +:+ "}" +:+ after)
                     (String.length before + 2 + String.length key + 1)
                     (String.length (before +:+ "${" +:+ key +:+ "}" +:+ after))
                   = Some after).
  { pose proof (slice_back (before +:+ "${" +:+ key +:+ "}") after) as Hs.
    rewrite !append_assoc in Hs.
    rewrite <- Hs. f_equal.
    rewrite !length_append. simpl. lia. }
  by rewrite Hafter.
Qed.

Lemma jankyFormat_plain fuel argument environment :
  lacks "$" argument → jankyFormat (S fuel) argument environment = Returned argument.
Proof. intros Hl. cbn [jankyFormat]. by rewrite strings_Index_lacks. Qed.

Lemma plain_append a b : plain (a +:+ b) ↔ plain a ∧ plain b.
Proof. unfold plain. rewrite !lacks_append. tauto. Qed.

Lemma jankyFormat_template environment parts ending_text acc fuel :
  plain acc →
  Forall (λ part : string * string,
            plain part.1 ∧ lacks "}" part.2
            ∧ ∃ value, environment !! part.2 = Some value ∧ plain value) parts →
  lacks "$" ending_text →
  jankyFormat (S (length parts + fuel)) (acc +:+ template parts ending_text) environment
  = Returned (acc +:+ expansion environment parts ending_text).
Proof.
  intros Hacc Hparts Hending. revert acc Hacc.
  induction Hparts as [|[text key] parts (Htext & Hkey & value & Hvalue & Hplain) _ IH];
    intros acc Hacc.
  - simpl. apply jankyFormat_plain. apply lacks_append. split; [apply Hacc|done].
  - cbn [template expansion length Nat.add fst snd] in *. rewrite Hvalue. cbn [default].
    replace (acc +:+ text +:+ "${" +:+ key +:+ "}" +:+ template parts ending_text)
      with ((acc +:+ text) +:+ "${" +:+ key +:+ "}" +:+ template parts ending_text)
      by (by rewrite !append_assoc).
    rewrite jankyFormat_step, Hvalue;
      [|apply lacks_append; split; [apply Hacc|apply Htext]
       |apply lacks_append; split; [apply Hacc|apply Htext]
       |done].
    replace ((acc +:+ text) +:+ value +:+ template parts ending_text)
      with (((acc +:+ text) +:+ value) +:+ template parts ending_text)
      by (by rewrite !append_assoc).
    rewrite IH by (rewrite !plain_append; done).
    by rewrite !append_assoc.
Qed.

(** Decides [lacks c s] on a literal. *)
Ltac lacks_it := vm_compute; repeat split; intros Heq; discriminate Heq.

(** X10. [jankyFormat] expands a well-formed template.  For texts
    without "$" and "}", each followed by a placeholder whose key has
    no "}" and whose value in the environment has no "$" and no "}",
    and a closing text without "$", the call returns, within one
    iteration per placeholder and one more, the texts with every
    placeholder replaced by its value. *)
Theorem jankyFormat_expands_template environment parts ending_text fuel :
  Forall (λ part : string * string,
            plain part.1 ∧ lacks "}" part.2
            ∧ ∃ value, environment !! part.2 = Some value ∧ plain value) parts →
  lacks "$" ending_text →
  jankyFormat (S (length parts + fuel)) (template parts ending_text) environment
  = Returned (expansion environment parts ending_text).
Proof.
  intros Hparts Hending.
  exact (jankyFormat_template environment parts ending_text "" fuel (conj I I) Hparts Hending).
Qed.

Lemma jankyFormat_expands_template_witness :
  jankyFormat 3 "--username ${user} --name ${user}" sample_environment
  = Returned "--username steve --name steve".
Proof.
  refine (jankyFormat_expands_template sample_environment
            [("--username ", "user"); (" --name ", "user")] "" 0 _ I).
  repeat constructor; try (exists "steve"; split; [reflexivity|split]); lacks_it.
Defined.

(** X11. At the first placeholder whose key is not in the environment
    [jankyFormat] returns the argument as it is: this placeholder and
    everything after it, placeholders with known keys included, stay
    unexpanded. *)
Theorem jankyFormat_stops_at_unknown_key fuel before key after environment :
  lacks "$" before → lacks "}" before → lacks "}" key →
  environment !! key = None →
  jankyFormat (S fuel) (before +:+ "${" +:+ key +:+ "}" +:+ after) environment
  = Returned (before +:+ "${" +:+ key +:+ "}" +:+ after).
Proof. intros Hd Hb Hk Hnone. by rewrite jankyFormat_step, Hnone. Qed.

Lemma jankyFormat_stops_at_unknown_key_witness :
  jankyFormat 1 "--uuid ${uuid} ${user}" sample_environment
  = Returned "--uuid ${uuid} ${user}".
Proof.
  refine (jankyFormat_stops_at_unknown_key 0 "--uuid " "uuid" " ${user}"
            sample_environment _ _ _ eq_refl); lacks_it.
Defined.

(** X12. [jankyFormat] panics on an argument that has a "${" and no
    "}" at all, and on one whose first "}" comes before its first "${":
    the slice expression that takes the key is out of range. *)
Theorem jankyFormat_panics_on_stray_brace fuel environment :
  (∀ before rest,
     lacks "$" before → lacks "}" before → lacks "}" rest →
     jankyFormat (S fuel) (before +:+ "${" +:+ rest) environment = Panicked)
  ∧ (∀ before middle rest,
       lacks "$" before → lacks "}" before → lacks "$" middle →
       jankyFormat (S fuel) (before +:+ "}" +:+ middle +:+ "${" +:+ rest) environment
       = Panicked).
Proof.
  split.
  - intros before rest Hd Hb Hr. cbn [jankyFormat].
    rewrite (strings_Index_after "$" "{" before rest Hd).
    rewrite strings_Index_lacks; [done|].
    rewrite !lacks_append. repeat split; done.
  - intros before middle rest Hd Hb Hm. cbn [jankyFormat].
    replace (before +:+ "}" +:+ middle +:+ "${" +:+ rest)
      with (((before +:+ "}") +:+ middle) +:+ "${" +:+ rest)
      by (by rewrite !append_assoc).
    rewrite (strings_Index_after "$" "{" ((before +:+ "}") +:+ middle) rest)
      by (rewrite !lacks_append; repeat split; done).
    replace (((before +:+ "}") +:+ middle) +:+ "${" +:+ rest)
      with (before +:+ "}" +:+ middle +:+ "${" +:+ rest)
      by (by rewrite !append_assoc).
    rewrite (strings_Index_after "}" "" before (middle +:+ "${" +:+ rest) Hb).
    unfold slice. rewrite !length_append.
    replace (_ <=? _)%nat with false; [done|].
    symmetry. apply Nat.leb_gt. simpl. lia.
Qed.

Lemma jankyFormat_panics_on_stray_brace_witness :
  jankyFormat 1 "--username ${user" sample_environment = Panicked
  ∧ jankyFormat 1 "{} ${user}" sample_environment = Panicked.
Proof.
  split.
  - refine (proj1 (jankyFormat_panics_on_stray_brace 0 sample_environment)
              "--username " "user" _ _ _); lacks_it.
  - refine (proj2 (jankyFormat_panics_on_stray_brace 0 sample_environment)
              "{" " " "user}" _ _ _); lacks_it.
Defined.

(** X13. When the value of the first placeholder's key is that same
    placeholder, [jankyFormat] never returns: whatever the number of
    iterations it is given, the loop has not ended. *)
Theorem jankyFormat_self_reference_never_returns fuel before key after environment :
  lacks "$" before → lacks "}" before → lacks "}" key →
  environment !! key = Some ("${" +:+ key +:+ "}") →
  jankyFormat fuel (before +:+ "${" +:+ key +:+ "}" +:+ after) environment = Unfinished.
Proof.
  intros Hd Hb Hk Hself. induction fuel as [|fuel IH]; [done|].
  rewrite jankyFormat_step, Hself by done.
  by rewrite !append_assoc.
Qed.

Lemma jankyFormat_self_reference_never_returns_witness :
  jankyFormat 1000 "-D${self}" sample_environment = Unfinished.
Proof.
  refine (jankyFormat_self_reference_never_returns 1000 "-D" "self" ""
            sample_environment _ _ _ eq_refl); lacks_it.
Defined.

(** ** Launch arguments *)

Lemma convert_features_bools (features : gmap string bool) :
  convert_features (JBool <$> features) = Some features.
Proof.
  unfold convert_features.
  induction features as [|key b features Hfresh Hfold IH] using map_first_key_ind.
  - by rewrite fmap_empty, map_fold_empty.
  - rewrite fmap_insert.
    rewrite map_fold_insert_first_key.
    + by rewrite IH.
    + by rewrite lookup_fmap, Hfresh.
    + rewrite <- fmap_insert. by apply map_first_key_fmap.
Qed.

Lemma convert_rule_json r :
  convert_rule {[ "action" := JString (Action r);
                  "features" := JObject (JBool <$> Features r);
                  "os" := JObject {[ "arch" := JString (OsArch r);
                                     "name" := JString (OsName r) ]} ]}
  = inr r.
Proof.
  unfold convert_rule.
  rewrite lookup_insert_eq. cbn [as_string].
  rewrite lookup_insert_ne, lookup_insert_eq by done. cbn [as_object].
  rewrite convert_features_bools.
  rewrite !lookup_insert_ne, lookup_singleton_eq by done. cbn [as_object].
  rewrite lookup_insert_eq, lookup_insert_ne, lookup_singleton_eq by done.
  by destruct r.
Qed.

Lemma convert_rules_json rules rest this_Rules :
  convert_rules ((rule_json <$> rules) ++ rest) this_Rules
  = convert_rules rest (this_Rules ++ rules).
Proof.
  revert this_Rules. induction rules as [|r rules IH]; intros this_Rules.
  - by rewrite app_nil_r.
  - cbn [fmap list_fmap app rule_json convert_rules].
    rewrite convert_rule_json, IH. by rewrite <- app_assoc.
Qed.

Lemma convert_values_strings values rest this_Value :
  convert_values ((JString <$> values) ++ rest) this_Value
  = convert_values rest (this_Value ++ values).
Proof.
  revert this_Value. induction values as [|v values IH]; intros this_Value.
  - by rewrite app_nil_r.
  - cbn [fmap list_fmap app convert_values]. rewrite IH. by rewrite <- app_assoc.
Qed.

(** X14. [Argument.UnmarshalJSON] reads a conditional argument back
    from its JSON shape: for the object with the rules (action,
    features, os.arch, os.name) and the list of values it returns nil
    and appends the rules and the values, in order, to those the
    receiver already has; for a bare JSON string it appends the string
    to the values and leaves the rules alone. *)
Theorem Argument_UnmarshalJSON_reads_argument decode this bytes :
  (∀ rules values,
     decode bytes = inr (argument_json rules values) →
     Argument_UnmarshalJSON decode this bytes
     = (Ok tt, {| Argument_Value := Argument_Value this ++ values;
                  Argument_Rules := Argument_Rules this ++ rules |}))
  ∧ (∀ s,
       decode bytes = inr (JString s) →
       Argument_UnmarshalJSON decode this bytes
       = (Ok tt, {| Argument_Value := Argument_Value this ++ [s];
                    Argument_Rules := Argument_Rules this |})).
Proof.
  split.
  - intros rules values Hdecode. unfold Argument_UnmarshalJSON.
    rewrite Hdecode. unfold argument_json. cbv beta iota. rewrite lookup_insert_eq.
    pose proof (convert_rules_json rules [] (Argument_Rules this)) as Hr.
    rewrite app_nil_r in Hr. rewrite Hr. cbn [convert_rules].
    rewrite lookup_insert_ne, lookup_singleton_eq by done.
    pose proof (convert_values_strings values [] (Argument_Value this)) as Hv.
    rewrite app_nil_r in Hv. rewrite Hv. reflexivity.
  - intros s Hdecode. unfold Argument_UnmarshalJSON. by rewrite Hdecode.
Qed.

Lemma Argument_UnmarshalJSON_reads_argument_witness :
  Argument_UnmarshalJSON
    (sample_decode (argument_json [rule_demo_allow] ["--demo"; "--width"]))
    no_argument [x7b; x7d]
  = (Ok tt, {| Argument_Value := ["--demo"; "--width"];
               Argument_Rules := [rule_demo_allow] |}).
Proof.
  exact (proj1 (Argument_UnmarshalJSON_reads_argument
                  (sample_decode (argument_json [rule_demo_allow] ["--demo"; "--width"]))
                  no_argument [x7b; x7d])
           [rule_demo_allow] ["--demo"; "--width"] eq_refl).
Defined.

Lemma convert_features_some (rawFeatures : gmap string json) features :
  convert_features rawFeatures = Some features → rawFeatures = JBool <$> features.
Proof.
  unfold convert_features. revert features.
  induction rawFeatures as [|key x raw Hfresh Hfirst IH] using map_first_key_ind;
    intros features.
  - rewrite map_fold_empty. intros [= <-]. by rewrite fmap_empty.
  - rewrite map_fold_insert_first_key by done.
    destruct (map_fold _ _ raw) as [folded|]; [|done].
    destruct x as [|b| | | |]; try done.
    intros [= <-]. rewrite fmap_insert. by rewrite <- (IH folded).
Qed.

Lemma convert_features_not_bool (rawFeatures : gmap string json) key x :
  rawFeatures !! key = Some x → (∀ b, x ≠ JBool b) →
  convert_features rawFeatures = None.
Proof.
  intros Hkey Hx.
  destruct (convert_features rawFeatures) as [features|] eqn:Hc; [|done].
  apply convert_features_some in Hc. subst rawFeatures.
  rewrite lookup_fmap in Hkey.
  destruct (features !! key) as [b|]; simplify_eq/=. by destruct (Hx b).
Qed.

(** X15. When [Argument.UnmarshalJSON] returns an error from inside an
    object, the receiver keeps the rules decoded before the error and
    gets no value: a rule that cannot be converted ends the call with
    its error after the rules before it were appended, and an object
    without "value" ends it with "rule had no value" after all its
    rules were appended.  A rule cannot be converted when its "action"
    is missing or not a string ("rule had no action") or when one of
    its features is not a boolean ("failed to convert rules
    features"). *)
Theorem Argument_UnmarshalJSON_error_keeps_decoded_rules decode this bytes object good :
  decode bytes = inr (JObject object) →
  (∀ bad rest err,
     object !! "rules" = Some (JArray ((rule_json <$> good) ++ JObject bad :: rest)) →
     convert_rule bad = inl err →
     Argument_UnmarshalJSON decode this bytes
     = (Fail err, {| Argument_Value := Argument_Value this;
                     Argument_Rules := Argument_Rules this ++ good |}))
  ∧ (object !! "rules" = Some (JArray (rule_json <$> good)) →
     object !! "value" = None →
     Argument_UnmarshalJSON decode this bytes
     = (Fail (New "rule had no value"),
        {| Argument_Value := Argument_Value this;
           Argument_Rules := Argument_Rules this ++ good |}))
  ∧ (∀ bad, as_string (bad !! "action") = None →
       convert_rule bad = inl (New "rule had no action"))
  ∧ (∀ bad action rawFeatures key x,
       bad !! "action" = Some (JString action) →
       bad !! "features" = Some (JObject rawFeatures) →
       rawFeatures !! key = Some x → (∀ b, x ≠ JBool b) →
       convert_rule bad = inl (New "failed to convert rules features")).
Proof.
  intros Hdecode. unfold Argument_UnmarshalJSON. rewrite Hdecode. split_and!.
  - intros bad rest err Hrules Hbad. rewrite Hrules.
    rewrite convert_rules_json. cbn [convert_rules]. by rewrite Hbad.
  - intros Hrules Hvalue. rewrite Hrules.
    pose proof (convert_rules_json good [] (Argument_Rules this)) as Hr.
    rewrite app_nil_r in Hr. rewrite Hr. cbn [convert_rules]. by rewrite Hvalue.
  - intros bad Haction. unfold convert_rule. by rewrite Haction.
  - intros bad action rawFeatures key x Haction Hfeatures Hkey Hx.
    unfold convert_rule. rewrite Haction, Hfeatures. cbn [as_string as_object].
    by rewrite (convert_features_not_bool rawFeatures key x).
Qed.

Lemma Argument_UnmarshalJSON_error_keeps_decoded_rules_witness :
  Argument_UnmarshalJSON
    (sample_decode (JObject {[ "rules" := JArray (rule_json <$> [rule_demo_allow]) ]}))
    no_argument [x7b; x7d]
  = (Fail (New "rule had no value"),
     {| Argument_Value := []; Argument_Rules := [rule_demo_allow] |}).
Proof.
  refine (proj1 (proj2 (Argument_UnmarshalJSON_error_keeps_decoded_rules
            (sample_decode (JObject {[ "rules" := JArray (rule_json <$> [rule_demo_allow]) ]}))
            no_argument [x7b; x7d]
            {[ "rules" := JArray (rule_json <$> [rule_demo_allow]) ]}
            [rule_demo_allow] eq_refl)) _ _).
  - vm_compute. reflexivity.
  - vm_compute. reflexivity.
Defined.

(** X16. [Argument.UnmarshalJSON] panics, instead of returning an
    error, on an object whose "rules" is not an array, whose "rules"
    has an element that is not an object, or whose "value" is an array
    with an element that is not a string. *)
Theorem Argument_UnmarshalJSON_panics_on_wrong_shape decode this bytes object :
  decode bytes = inr (JObject object) →
  (∀ x, object !! "rules" = Some x → (∀ items, x ≠ JArray items) →
     (Argument_UnmarshalJSON decode this bytes).1 = Panic)
  ∧ (∀ good x rest,
       object !! "rules" = Some (JArray ((rule_json <$> good) ++ x :: rest)) →
       (∀ fields, x ≠ JObject fields) →
       (Argument_UnmarshalJSON decode this bytes).1 = Panic)
  ∧ (∀ values x rest,
       object !! "rules" = None →
       object !! "value" = Some (JArray ((JString <$> values) ++ x :: rest)) →
       (∀ s, x ≠ JString s) →
       (Argument_UnmarshalJSON decode this bytes).1 = Panic).
Proof.
  intros Hdecode. unfold Argument_UnmarshalJSON. rewrite Hdecode. split_and!.
  - intros x Hrules Hx. rewrite Hrules.
    destruct x as [| | | |items|]; try done. by destruct (Hx items).
  - intros good x rest Hrules Hx. rewrite Hrules, convert_rules_json.
    destruct x as [| | | | |fields]; try done. by destruct (Hx fields).
  - intros values x rest Hrules Hvalue Hx. rewrite Hrules, Hvalue.
    rewrite convert_values_strings.
    destruct x as [| | |s| |]; try done. by destruct (Hx s).
Qed.

Lemma Argument_UnmarshalJSON_panics_on_wrong_shape_witness :
  (Argument_UnmarshalJSON
     (sample_decode (JObject {[ "rules" := JString "allow"; "value" := JString "--demo" ]}))
     no_argument [x7b; x7d]).1
  = Panic.
Proof.
  refine (proj1 (Argument_UnmarshalJSON_panics_on_wrong_shape
            (sample_decode (JObject {[ "rules" := JString "allow";
                                       "value" := JString "--demo" ]}))
            no_argument [x7b; x7d]
            {[ "rules" := JString "allow"; "value" := JString "--demo" ]} eq_refl)
            (JString "allow") _ _).
  - vm_compute. reflexivity.
  - intros items Heq. discriminate Heq.
Defined.

(** X17. An object without "rules" whose "value" is neither a string
    nor an array (a number, a boolean, null, an object) is accepted by
    [Argument.UnmarshalJSON]: it returns nil and leaves the receiver as
    it was.  A JSON value that is neither a string nor an object is
    refused with "can't handle argument JSON: <bytes>", the receiver
    unchanged. *)
Theorem Argument_UnmarshalJSON_ignores_other_value decode this bytes :
  (∀ object x,
     decode bytes = inr (JObject object) →
     object !! "rules" = None → object !! "value" = Some x →
     (∀ s, x ≠ JString s) → (∀ items, x ≠ JArray items) →
     Argument_UnmarshalJSON decode this bytes = (Ok tt, this))
  ∧ (∀ x,
       decode bytes = inr x →
       (∀ s, x ≠ JString s) → (∀ fields, x ≠ JObject fields) →
       Argument_UnmarshalJSON decode this bytes
       = (Fail (New ("can't handle argument JSON: " +:+ string_of_list_byte bytes)),
          this)).
Proof.
  unfold Argument_UnmarshalJSON. split.
  - intros object x Hdecode Hrules Hvalue Hs Ha. rewrite Hdecode, Hrules, Hvalue.
    destruct this. destruct x as [| | |s|items|]; try done.
    + by destruct (Hs s).
    + by destruct (Ha items).
  - intros x Hdecode Hs Ho. rewrite Hdecode.
    destruct x as [| | |s| |fields]; try done.
    + by destruct (Hs s).
    + by destruct (Ho fields).
Qed.

Lemma Argument_UnmarshalJSON_ignores_other_value_witness :
  Argument_UnmarshalJSON (sample_decode (JObject {[ "value" := JNumber 7 ]}))
    no_argument [x7b; x7d]
  = (Ok tt, no_argument)
  ∧ Argument_UnmarshalJSON (sample_decode (JNumber 7)) no_argument [x37]
    = (Fail (New "can't handle argument JSON: 7"), no_argument).
Proof.
  split.
  - refine (proj1 (Argument_UnmarshalJSON_ignores_other_value
              (sample_decode (JObject {[ "value" := JNumber 7 ]})) no_argument [x7b; x7d])
              {[ "value" := JNumber 7 ]} (JNumber 7) eq_refl _ _ _ _).
    + vm_compute. reflexivity.
    + vm_compute. reflexivity.
    + intros s Heq. discriminate Heq.
    + intros items Heq. discriminate Heq.
  - refine (proj2 (Argument_UnmarshalJSON_ignores_other_value
              (sample_decode (JNumber 7)) no_argument [x37])
              (JNumber 7) eq_refl _ _).
    + intros s Heq. discriminate Heq.
    + intros fields Heq. discriminate Heq.
Defined.

(** ** JDK releases *)

Lemma release_less_spec a b :
  release_less a b = true
  ↔ (AdoptiumVersion_Major a < AdoptiumVersion_Major b
     ∨ AdoptiumVersion_Major a = AdoptiumVersion_Major b
       ∧ (AdoptiumVersion_Minor a < AdoptiumVersion_Minor b
          ∨ AdoptiumVersion_Minor a = AdoptiumVersion_Minor b
            ∧ (AdoptiumVersion_Security a < AdoptiumVersion_Security b
               ∨ AdoptiumVersion_Security a = AdoptiumVersion_Security b
                 ∧ AdoptiumVersion_Build a < AdoptiumVersion_Build b))).
Proof.
  unfold release_less.
  destruct (Z.eqb_spec (AdoptiumVersion_Major a) (AdoptiumVersion_Major b));
    cbn [negb]; [|rewrite Z.ltb_lt; lia].
  destruct (Z.eqb_spec (AdoptiumVersion_Minor a) (AdoptiumVersion_Minor b));
    cbn [negb]; [|rewrite Z.ltb_lt; lia].
  destruct (Z.eqb_spec (AdoptiumVersion_Security a) (AdoptiumVersion_Security b));
    cbn [negb]; rewrite Z.ltb_lt; lia.
Qed.

(** X18. The comparison that [downloadJdk] hands to [sort.Slice] is a
    strict weak order on releases: it is irreflexive and transitive,
    and two releases are unordered both ways exactly when they agree on
    major, minor, security and build (patch and the version strings
    play no part).  Hence in any reordering of the releases that is
    sorted by it, no release is above the last one, the one
    [downloadJdk] takes. *)
Theorem release_less_strict_weak_order :
  (∀ a, release_less a a = false)
  ∧ (∀ a b c, release_less a b = true → release_less b c = true →
              release_less a c = true)
  ∧ (∀ a b, release_less a b = false ∧ release_less b a = false
            ↔ release_key a = release_key b)
  ∧ (∀ releases sorted latest,
       sorted ≡ₚ releases →
       (∀ i j a b, (i < j)%nat → sorted !! i = Some a → sorted !! j = Some b →
                   release_less b a = false) →
       last sorted = Some latest →
       ∀ r, r ∈ releases → release_less latest r = false).
Proof.
  split_and!.
  - intros a. apply not_true_is_false. rewrite release_less_spec. lia.
  - intros a b c. rewrite !release_less_spec. lia.
  - intros a b. rewrite <- !not_true_iff_false, !release_less_spec.
    unfold release_key. split.
    + intros [Hab Hba].
      assert (AdoptiumVersion_Major a = AdoptiumVersion_Major b) as -> by lia.
      assert (AdoptiumVersion_Minor a = AdoptiumVersion_Minor b) as -> by lia.
      assert (AdoptiumVersion_Security a = AdoptiumVersion_Security b) as -> by lia.
      assert (AdoptiumVersion_Build a = AdoptiumVersion_Build b) as -> by lia.
      reflexivity.
    + intros [= -> -> -> ->]. lia.
  - intros releases sorted latest Hperm Hsorted Hlast r Hr.
    rewrite <- Hperm in Hr. apply list_elem_of_lookup in Hr as [i Hi].
    rewrite last_lookup in Hlast.
    pose proof (lookup_lt_Some _ _ _ Hi) as Hlt.
    destruct (decide (i = pred (length sorted))) as [->|Hne].
    + rewrite Hlast in Hi. injection Hi as ->.
      apply not_true_is_false. rewrite release_less_spec. lia.
    + eapply (Hsorted i (pred (length sorted))); [lia|done..].
Qed.

Lemma release_less_strict_weak_order_witness :
  release_less jdk_17_0_10 jdk_17_0_9 = false.
Proof.
  refine (proj2 (proj2 (proj2 release_less_strict_weak_order))
            [jdk_17_0_10; jdk_17_0_9] [jdk_17_0_9; jdk_17_0_10] jdk_17_0_10
            _ _ eq_refl jdk_17_0_9 _).
  - apply perm_swap.
  - intros i j a b Hlt Ha Hb.
    destruct i as [|[|i]], j as [|[|j]]; try lia; try discriminate;
      injection Ha as <-; injection Hb as <-; reflexivity.
  - apply list_elem_of_further, list_elem_of_here.
Defined.

(** ** Zip extraction *)








(** ** The windows build *)

Lemma insanifyPath_length path :
  String.length (Windows.insanifyPath path) = String.length path.
Proof. induction path as [|c path IH]; simpl; [done|]. by rewrite IH. Qed.

(** X20. [insanifyPath] of the windows build keeps the length of the
    path, leaves no "/" in it, gives the same result when applied
    twice, and returns a path without "/" unchanged. *)
Theorem insanifyPath_replaces_every_slash path :
  String.length (Windows.insanifyPath path) = String.length path
  ∧ lacks "/" (Windows.insanifyPath path)
  ∧ Windows.insanifyPath (Windows.insanifyPath path) = Windows.insanifyPath path
  ∧ (lacks "/" path → Windows.insanifyPath path = path).
Proof.
  split; [apply insanifyPath_length|].
  induction path as [|c path (Hl & Hi & Hid)]; [done|].
  simpl. destruct (Ascii.eqb_spec c "/") as [->|Hne].
  - split_and!.
    + done.
    + exact Hl.
    + simpl. by rewrite Hi.
    + by intros [? _].
  - split_and!.
    + done.
    + exact Hl.
    + simpl. destruct (Ascii.eqb_spec c "/"); [done|]. by rewrite Hi.
    + intros [_ Hp]. by rewrite (Hid Hp).
Qed.

Lemma insanifyPath_replaces_every_slash_witness :
  String.length (Windows.insanifyPath "cache/a.bin") = 11%nat
  ∧ Windows.insanifyPath "a.bin" = "a.bin".
Proof.
  split.
  - exact (proj1 (insanifyPath_replaces_every_slash "cache/a.bin")).
  - refine (proj2 (proj2 (proj2 (insanifyPath_replaces_every_slash "a.bin"))) _).
    lacks_it.
Defined.

Section WindowsProperties.
Context `{GoLib}.

(** X21. In the windows build [fileExists] answers [err != nil], so
    [validateHash] never confirms a file.  When the stat is not
    refused: for a path that exists it returns false without an error
    after the stat alone, whatever the file holds; for a path that does
    not exist it goes on to hash it and fails with the error of the
    open under "could not validate hash of <path>". *)
Theorem windows_validateHash_never_confirms path hash w :
  fault w OpStat (Windows.insanifyPath path) = false →
  (∀ n, fs w !! Windows.insanifyPath path = Some n →
     Windows.validateHash path hash w
     = (Ok false, add_events [EStat (Windows.insanifyPath path)] w))
  ∧ (fs w !! Windows.insanifyPath path = None →
     Windows.validateHash path hash w
     = (Fail (JoinError [New ("could not validate hash of " +:+ path);
                         JoinError [New ("failed to hash file " +:+ path);
                                    Sys OpOpen (Windows.insanifyPath path)]]),
        add_events [EStat (Windows.insanifyPath path);
                    EOpen (Windows.insanifyPath path)] w)).
Proof.
  intros Hs. unfold Windows.validateHash, Windows.fileExists. split.
  - intros n Hn.
    erewrite bind_ok.
    2:{ erewrite bind_ok; [|eapply attempt_ok, os_Stat_found; eassumption].
        reflexivity. }
    reflexivity.
  - intros Hn.
    erewrite bind_ok.
    2:{ erewrite bind_ok; [|eapply attempt_fail, os_Stat_missing; eassumption].
        reflexivity. }
    cbv beta iota.
    erewrite bind_fail; [|eapply wrap_fail].
    2:{ unfold Windows.hashFile, Windows.openFile.
        erewrite bind_fail; [reflexivity|].
        eapply wrap_fail, os_Open_missing. exact Hn. }
    by rewrite add_events_app.
Qed.

End WindowsProperties.

Lemma windows_validateHash_never_confirms_witness :
  @Windows.validateHash sample_lib "a.bin" hash_a40 flat_world
  = (Ok false, add_events [EStat "a.bin"] flat_world)
  ∧ @Windows.validateHash sample_lib "b.bin" hash_a40 flat_world
    = (Fail (JoinError [New "could not validate hash of b.bin";
                        JoinError [New "failed to hash file b.bin"; Sys OpOpen "b.bin"]]),
       add_events [EStat "b.bin"; EOpen "b.bin"] flat_world).
Proof.
  split.
  - exact (proj1 (@windows_validateHash_never_confirms sample_lib "a.bin" hash_a40
                    flat_world eq_refl) (NFile 420 [x61]) eq_refl).
  - exact (proj2 (@windows_validateHash_never_confirms sample_lib "b.bin" hash_a40
                    flat_world eq_refl) eq_refl).
Defined.
